(** * server-analytics: the stateless metrics processor, its poller and the
      file-backed relay

    A shallow embedding of [graphana-dashboard/dashboard_server.py] and
    [monitor/web_server.py].

    Conventions of the embedding.
    - A value obtained from [json.loads] is a [json] tree.  Python's [None]
      is [JNull], a [dict] with string keys is a [gmap string json].
    - Python [int] is [Z], Python [float] is an exact rational [Q]; [bool]
      is a subclass of [int] and takes part in arithmetic as 0 or 1.  IEEE
      rounding, infinities and NaN are outside the model.
    - An operation that raises returns [Raise e]; a method that mutates
      [self] returns the new processor next to its result.
    - [time.time()] is an argument of the function that reads the clock. *)

From Stdlib Require Import QArith ZArith Ascii String.
From stdpp Require Import gmap strings list fin_maps.

#[local] Set Warnings "-register-all".
#[local] Open Scope string_scope.
#[local] Open Scope list_scope.
#[local] Open Scope nat_scope.

(* ===================================================================== *)
(** * Python values *)
(* ===================================================================== *)

Inductive json :=
| JNull
| JBool (b : bool)
| JInt (z : Z)
| JFloat (q : Q)
| JStr (s : string)
| JArr (l : list json)
| JObj (d : gmap string json).

Inductive exn :=
| AttributeError
| TypeError
| KeyError
| ValueError
| ZeroDivisionError.

Inductive result (A : Type) :=
| Ok (a : A)
| Raise (e : exn).
Arguments Ok {A} a.
Arguments Raise {A} e.

#[global] Instance result_ret : MRet result := @Ok.
#[global] Instance result_bind : MBind result :=
  λ A B f m, match m with Ok a => f a | Raise e => Raise e end.
#[global] Instance result_fmap : FMap result :=
  λ A B f m, match m with Ok a => Ok (f a) | Raise e => Raise e end.

(** [copy.deepcopy] on a tree: every container is rebuilt. *)
Fixpoint deepcopy (j : json) : json :=
  match j with
  | JArr l => JArr (deepcopy <$> l)
  | JObj d => JObj (deepcopy <$> d)
  | _ => j
  end.

Definition deepcopy_dict (d : gmap string json) : gmap string json :=
  deepcopy <$> d.

Fixpoint json_size (j : json) : nat :=
  match j with
  | JArr l => S (foldr (λ x acc, json_size x + acc) 0 l)
  | JObj d => S (map_fold (λ _ v acc, json_size v + acc) 0 d)
  | _ => 1
  end.

(** The numeric view of a value: [bool], [int] and [float]. *)
Definition py_int (v : json) : option Z :=
  match v with
  | JBool b => Some (Z.b2z b)
  | JInt z => Some z
  | _ => None
  end.

Definition py_num (v : json) : option Q :=
  match v with
  | JBool b => Some (inject_Z (Z.b2z b))
  | JInt z => Some (inject_Z z)
  | JFloat q => Some q
  | _ => None
  end.

(** [a - b]: an [int] when both operands are, a [float] otherwise. *)
Definition py_sub (a b : json) : result json :=
  match py_int a, py_int b with
  | Some x, Some y => Ok (JInt (x - y))
  | _, _ =>
      match py_num a, py_num b with
      | Some x, Some y => Ok (JFloat (x - y))
      | _, _ => Raise TypeError
      end
  end.

(** [a / b]: true division, always a [float]. *)
Definition py_truediv (a b : json) : result json :=
  match py_num a, py_num b with
  | Some x, Some y =>
      if Qeq_bool y 0 then Raise ZeroDivisionError else Ok (JFloat (x / y))
  | _, _ => Raise TypeError
  end.

(** [a == b]. *)
Fixpoint py_eq (a b : json) : bool :=
  match a, b with
  | JNull, JNull => true
  | JStr s, JStr t => String.eqb s t
  | JArr xs, JArr ys =>
      (fix go xs ys :=
         match xs, ys with
         | [], [] => true
         | x :: xs', y :: ys' => py_eq x y && go xs' ys'
         | _, _ => false
         end) xs ys
  | JObj d, JObj e =>
      Nat.eqb (size d) (size e) &&
      map_fold (λ k v acc,
                 acc && match e !! k with
                        | Some w => py_eq v w
                        | None => false
                        end) true d
  | _, _ =>
      match py_num a, py_num b with
      | Some x, Some y => Qeq_bool x y
      | _, _ => false
      end
  end.

(** The two ordering operators the sources use: [<=] and [>]. *)
Inductive cmp_op := OpLe | OpGt.

Definition num_cmp (op : cmp_op) (x y : Q) : bool :=
  match op with
  | OpLe => Qle_bool x y
  | OpGt => negb (Qle_bool x y)
  end.

Definition str_cmp (op : cmp_op) (s t : string) : bool :=
  match op with
  | OpLe => String.leb s t
  | OpGt => negb (String.leb s t)
  end.

Definition len_cmp (op : cmp_op) (n m : nat) : bool :=
  match op with
  | OpLe => Nat.leb n m
  | OpGt => Nat.ltb m n
  end.

(** [a <= b] and [a > b].  Numbers compare by value, strings and lists
    lexicographically; every other pairing raises [TypeError]. *)
Fixpoint py_cmp (op : cmp_op) (a b : json) : result bool :=
  match a, b with
  | JStr s, JStr t => Ok (str_cmp op s t)
  | JArr xs, JArr ys =>
      (fix go xs ys :=
         match xs, ys with
         | x :: xs', y :: ys' =>
             if py_eq x y then go xs' ys' else py_cmp op x y
         | _, _ => Ok (len_cmp op (length xs) (length ys))
         end) xs ys
  | _, _ =>
      match py_num a, py_num b with
      | Some x, Some y => Ok (num_cmp op x y)
      | _, _ => Raise TypeError
      end
  end.

(** [o.get(k, dflt)]: only a [dict] has the method. *)
Definition py_get (o : json) (k : string) (dflt : json) : result json :=
  match o with
  | JObj d => Ok (default dflt (d !! k))
  | _ => Raise AttributeError
  end.

(** [d.get(g, {}).get(f, 0)]. *)
Definition counter_field (d : gmap string json) (g f : string) : result json :=
  py_get (default (JObj ∅) (d !! g)) f (JInt 0).

(** [output[g][f] = v]. *)
Definition setitem2 (output : gmap string json) (g f : string) (v : json)
  : result (gmap string json) :=
  match output !! g with
  | None => Raise KeyError
  | Some (JObj d) => Ok (<[g := JObj (<[f := v]> d)]> output)
  | Some _ => Raise TypeError
  end.

(** [if g not in output: output[g] = {}]. *)
Definition ensure_group (output : gmap string json) (g : string)
  : gmap string json :=
  match output !! g with
  | None => <[g := JObj ∅]> output
  | Some _ => output
  end.

(* ===================================================================== *)
(** * StatelessMetricsProcessor *)
(* ===================================================================== *)

Record processor := Processor {
  latest_sample : option (gmap string json);
  last_seen_ts : json;
  last_counter_values : gmap string json;
  last_counter_ts : json;
  max_age_seconds : Z
}.

(** [__init__]. *)
Definition init (max_age : Z) : processor :=
  {| latest_sample := None;
     last_seen_ts := JNull;
     last_counter_values := ∅;
     last_counter_ts := JNull;
     max_age_seconds := max_age |}.

(** [self.last_seen_ts is not None and sample_ts <= self.last_seen_ts]. *)
Definition not_advancing (self : processor) (sample_ts : json) : result bool :=
  match last_seen_ts self with
  | JNull => Ok false
  | seen => py_cmp OpLe sample_ts seen
  end.

(** The four counters of a snapshot, under their dotted names. *)
Definition counters_of (snap : gmap string json) : result (gmap string json) :=
  r ← counter_field snap "disk" "read_sectors";
  w ← counter_field snap "disk" "write_sectors";
  rx ← counter_field snap "network" "rx_bytes";
  tx ← counter_field snap "network" "tx_bytes";
  Ok (<["disk.read_sectors" := r]>
      (<["disk.write_sectors" := w]>
       (<["network.rx_bytes" := rx]>
        (<["network.tx_bytes" := tx]> ∅)))).

(** [if self.latest_sample is not None: ...]: the previous counters and
    their timestamp are kept for the rate computation. *)
Definition store_previous (self : processor) : result processor :=
  match latest_sample self with
  | None => Ok self
  | Some prev =>
      values ← counters_of prev;
      Ok {| latest_sample := latest_sample self;
            last_seen_ts := last_seen_ts self;
            last_counter_values := values;
            last_counter_ts := last_seen_ts self;
            max_age_seconds := max_age_seconds self |}
  end.

Definition update (self : processor) (sample : gmap string json)
  : processor * result bool :=
  let sample_ts := default JNull (sample !! "ts") in
  match sample_ts with
  | JNull => (self, Ok false)
  | _ =>
      match not_advancing self sample_ts with
      | Raise e => (self, Raise e)
      | Ok true => (self, Ok false)
      | Ok false =>
          match store_previous self with
          | Raise e => (self, Raise e)
          | Ok self1 =>
              ({| latest_sample := Some (deepcopy_dict sample);
                  last_seen_ts := sample_ts;
                  last_counter_values := last_counter_values self1;
                  last_counter_ts := last_counter_ts self1;
                  max_age_seconds := max_age_seconds self1 |}, Ok true)
          end
      end
  end.

(** The three arms of the rate computation. *)
Inductive rate_branch :=
| RatesFromDelta (time_delta : json)
| ZeroInvalidDelta
| ZeroNoPrevious.

Definition select_branch (self : processor) : result rate_branch :=
  match last_counter_ts self, last_seen_ts self with
  | JNull, _ | _, JNull => Ok ZeroNoPrevious
  | counter_ts, seen_ts =>
      time_delta ← py_sub seen_ts counter_ts;
      positive ← py_cmp OpGt time_delta (JInt 0);
      Ok (if positive : bool then RatesFromDelta time_delta else ZeroInvalidDelta)
  end.

(** One group of the rate arm: both counters are read, both rates are
    computed and written. *)
Definition derive_group (self : processor) (time_delta : json)
    (output : gmap string json) (g f1 f2 : string) : result (gmap string json) :=
  let output := ensure_group output g in
  current1 ← counter_field output g f1;
  current2 ← counter_field output g f2;
  let prev1 := default (JInt 0) (last_counter_values self !! (g +:+ "." +:+ f1)) in
  let prev2 := default (JInt 0) (last_counter_values self !! (g +:+ "." +:+ f2)) in
  d1 ← py_sub current1 prev1;
  rate1 ← py_truediv d1 time_delta;
  output ← setitem2 output g (f1 +:+ "_rate") rate1;
  d2 ← py_sub current2 prev2;
  rate2 ← py_truediv d2 time_delta;
  setitem2 output g (f2 +:+ "_rate") rate2.

(** One group of a zero arm. *)
Definition zero_group (output : gmap string json) (g f1 f2 : string)
  : result (gmap string json) :=
  let output := ensure_group output g in
  output ← setitem2 output g (f1 +:+ "_rate") (JFloat 0);
  setitem2 output g (f2 +:+ "_rate") (JFloat 0).

Definition zero_rates (output : gmap string json) : result (gmap string json) :=
  output ← zero_group output "disk" "read_sectors" "write_sectors";
  zero_group output "network" "rx_bytes" "tx_bytes".

Definition get_latest_with_derived (self : processor)
  : result (option (gmap string json)) :=
  match latest_sample self with
  | None => Ok None
  | Some latest =>
      let output := deepcopy_dict latest in
      branch ← select_branch self;
      output ← match branch with
               | RatesFromDelta time_delta =>
                   output ← derive_group self time_delta output
                              "disk" "read_sectors" "write_sectors";
                   derive_group self time_delta output
                     "network" "rx_bytes" "tx_bytes"
               | ZeroInvalidDelta => zero_rates output
               | ZeroNoPrevious => zero_rates output
               end;
      Ok (Some output)
  end.

Definition health (status : string) (ts : json) : gmap string json :=
  <["status" := JStr status]> (<["last_seen_ts" := ts]> ∅).

Definition get_health_status (self : processor) (current_time : Q)
  : result (gmap string json) :=
  match last_seen_ts self with
  | JNull => Ok (health "stale" JNull)
  | seen =>
      age_seconds ← py_sub (JFloat current_time) seen;
      too_old ← py_cmp OpGt age_seconds (JInt (max_age_seconds self));
      Ok (if too_old : bool then health "stale" seen else health "ok" seen)
  end.

(* ===================================================================== *)
(** * DashboardHandler *)
(* ===================================================================== *)

(** The message of [send_error]: none, the text given, or [str(e)] of the
    exception caught. *)
Inductive error_message :=
| NoMessage
| Message (text : string)
| MessageOf (e : exn).

(** What a handler sends: [send_response(200)] with a JSON or an HTML body,
    or [send_error].  The body of a JSON response is the value handed to
    [json.dumps]; on a [json] tree [json.dumps] does not raise, so the
    handlers' [except] arm that answers 500 is never entered. *)
Inductive response :=
| JsonResponse (status : Z) (body : json)
| HtmlResponse (status : Z)
| ErrorResponse (code : Z) (message : error_message).

Definition _serve_metrics (processor0 : processor) : result response :=
  sample ← get_latest_with_derived processor0;
  match sample with
  | None => Ok (ErrorResponse 503 (Message "No metrics available"))
  | Some sample => Ok (JsonResponse 200 (JObj sample))
  end.

Definition _serve_health (processor0 : processor) (current_time : Q)
  : result response :=
  health ← get_health_status processor0 current_time;
  Ok (JsonResponse 200 (JObj health)).

Definition _serve_dashboard : response := HtmlResponse 200.

(** [do_GET], on the path component of the request. *)
Definition do_GET (processor0 : processor) (current_time : Q) (path : string)
  : result response :=
  if String.eqb path "/" || String.eqb path "/index.html" then
    Ok _serve_dashboard
  else if String.eqb path "/metrics" then _serve_metrics processor0
  else if String.eqb path "/health" then _serve_health processor0 current_time
  else Ok (ErrorResponse 404 NoMessage).

(* ===================================================================== *)
(** * poll_upstream_metrics *)
(* ===================================================================== *)

(** [lambda x: x.get('ts', 0) if isinstance(x, dict) else 0]. *)
Definition ts_key (x : json) : json :=
  match x with
  | JObj d => default (JInt 0) (d !! "ts")
  | _ => JInt 0
  end.

(** The loop of the builtin [max(iterable, key=...)]: the running maximum
    is replaced only by an item whose key is strictly greater. *)
Fixpoint max_from (key : json → json) (best best_key : json)
    (rest : list json) : result json :=
  match rest with
  | [] => Ok best
  | item :: rest' =>
      greater ← py_cmp OpGt (key item) best_key;
      if greater : bool then max_from key item (key item) rest'
      else max_from key best best_key rest'
  end.

Definition py_max (key : json → json) (items : list json) : result json :=
  match items with
  | [] => Raise ValueError
  | first :: rest => max_from key first (key first) rest
  end.

(** What one iteration of the loop writes to the log. *)
Inductive poll_log :=
| LogAccepted (sample_ts : json)
| LogRejected (sample_ts : json)
| LogEmptyArray
| LogUnexpectedFormat
| LogProcessingError (e : exn)
| LogNoData.

(** The outcome of one iteration: the processor afterwards, the argument of
    the call to [processor.update] if one was made, and the log line. *)
Record poll_outcome := PollOutcome {
  poll_processor : processor;
  poll_forwarded : option (gmap string json);
  poll_logged : poll_log
}.

(** [sample_ts = sample.get('ts')] followed by [processor.update(sample)];
    an exception is caught by the enclosing [except Exception]. *)
Definition forward_sample (processor0 : processor) (sample : json)
  : poll_outcome :=
  match sample with
  | JObj d =>
      let sample_ts := default JNull (d !! "ts") in
      match update processor0 d with
      | (p, Ok true) => PollOutcome p (Some d) (LogAccepted sample_ts)
      | (p, Ok false) => PollOutcome p (Some d) (LogRejected sample_ts)
      | (p, Raise e) => PollOutcome p (Some d) (LogProcessingError e)
      end
  | _ => PollOutcome processor0 None (LogProcessingError AttributeError)
  end.

(** The body of the polling loop between the fetch and the sleep;
    [metrics_data] is what [_fetch_metrics_sync] returned, [None] when the
    fetch failed. *)
Definition poll_once (processor0 : processor) (metrics_data : json)
  : poll_outcome :=
  match metrics_data with
  | JNull => PollOutcome processor0 None LogNoData
  | JArr [] => PollOutcome processor0 None LogEmptyArray
  | JArr items =>
      match py_max ts_key items with
      | Ok newest_sample => forward_sample processor0 newest_sample
      | Raise e => PollOutcome processor0 None (LogProcessingError e)
      end
  | JObj d => forward_sample processor0 (JObj d)
  | _ => PollOutcome processor0 None LogUnexpectedFormat
  end.

(* ===================================================================== *)
(** * Runs of the processor *)
(* ===================================================================== *)

(** The states the processor passes through when [update] is called on a
    sequence of samples, starting from [__init__]. *)
Inductive reachable (max_age : Z) : processor → Prop :=
| reachable_init : reachable max_age (init max_age)
| reachable_update self sample :
    reachable max_age self →
    reachable max_age (update self sample).1.

(** [run self samples]: the state after the calls and what each returned. *)
Fixpoint run (self : processor) (samples : list (gmap string json))
  : processor * list (result bool) :=
  match samples with
  | [] => (self, [])
  | sample :: rest =>
      let '(self1, r) := update self sample in
      let '(self2, rs) := run self1 rest in
      (self2, r :: rs)
  end.

(* ===================================================================== *)
(** * monitor/web_server.py: the file-backed relay *)
(* ===================================================================== *)

(** The metrics file as [load_metrics] finds it. *)
Inductive metrics_file :=
| FileMissing
| FileLines (lines : list string)
| FileUnreadable.

(** The module's globals. *)
Record relay := Relay {
  metrics_cache : list json;
  latest_metric_cache : json;
  last_refresh : Q
}.

Definition relay_start : relay :=
  {| metrics_cache := []; latest_metric_cache := JObj ∅; last_refresh := 0 |}.

Section Relay.
(** [json.loads]; [None] stands for [json.JSONDecodeError]. *)
Variable loads : string → option json.
(** [str.strip]. *)
Variable strip : string → string.
(** [dict(x)] on a string or a list: the builtin reads [x] as a sequence
    of key and value pairs. *)
Variable dict_of_pairs : json → result (gmap string json).

(** The [for line in f] loop. *)
Fixpoint read_lines (lines : list string) (metrics : list json)
    (latest : json) : list json * json :=
  match lines with
  | [] => (metrics, latest)
  | line :: rest =>
      let line := strip line in
      if String.eqb line "" then read_lines rest metrics latest
      else
        match loads line with
        | Some metric => read_lines rest (metrics ++ [metric]) metric
        | None => read_lines rest metrics latest
        end
  end.

Definition load_metrics (file : metrics_file) (now : Q) (globals : relay)
  : relay :=
  match file with
  | FileUnreadable => globals
  | FileMissing =>
      {| metrics_cache := []; latest_metric_cache := JObj ∅;
         last_refresh := now |}
  | FileLines lines =>
      let '(metrics, latest) := read_lines lines [] (JObj ∅) in
      {| metrics_cache := metrics; latest_metric_cache := latest;
         last_refresh := now |}
  end.

(** [dict(latest_metric_cache)]. *)
Definition py_dict (x : json) : result (gmap string json) :=
  match x with
  | JObj d => Ok d
  | JNull | JBool _ | JInt _ | JFloat _ => Raise TypeError
  | JStr _ | JArr _ => dict_of_pairs x
  end.

Definition serve_latest_metric (globals : relay) : response :=
  match py_dict (latest_metric_cache globals) with
  | Ok latest => JsonResponse 200 (JObj latest)
  | Raise e => ErrorResponse 500 (MessageOf e)
  end.


(** The last line that is not blank after [strip] and that [loads]
    accepts, with the value it parses to. *)
Fixpoint last_parsed (lines : list string) : option json :=
  match lines with
  | [] => None
  | line :: rest =>
      match last_parsed rest with
      | Some v => Some v
      | None =>
          if String.eqb (strip line) "" then None else loads (strip line)
      end
  end.
End Relay.

(* ===================================================================== *)
(** * Vocabulary of the statements *)
(* ===================================================================== *)

(** A call to [update] that returned [True]. *)
Definition is_accepted (r : result bool) : bool :=
  match r with
  | Ok true => true
  | _ => false
  end.

(** How many calls of a run were accepted. *)
Definition accepted (rs : list (result bool)) : nat :=
  length (List.filter is_accepted rs).

(** [out[g][f]], when the group is a [dict] that has the field. *)
Definition field_of (out : gmap string json) (g f : string) : option json :=
  match out !! g with
  | Some (JObj d) => d !! f
  | _ => None
  end.

(** The field holds the [float] [q]. *)
Definition rate_is (out : gmap string json) (g f : string) (q : Q) : Prop :=
  ∃ q', field_of out g f = Some (JFloat q') ∧ (q' == q)%Q.




(** What holds of the processor between calls: the timestamp kept is the
    one of the snapshot kept, nothing is kept before the first snapshot,
    and the previous timestamp, once there, lies before the latest one. *)
Definition consistent (self : processor) : Prop :=
  match latest_sample self with
  | None =>
      last_seen_ts self = JNull ∧ last_counter_values self = ∅ ∧
      last_counter_ts self = JNull
  | Some latest =>
      latest !! "ts" = Some (last_seen_ts self) ∧ last_seen_ts self ≠ JNull
  end ∧
  (last_counter_ts self ≠ JNull →
   py_cmp OpLe (last_seen_ts self) (last_counter_ts self) = Ok false).

(** Two snapshots of the shape the dashboard consumes, ten seconds apart. *)
Definition snapshot (ts r w rx tx : Z) : gmap string json :=
  <["ts" := JInt ts]>
  (<["disk" := JObj (<["read_sectors" := JInt r]>
                     (<["write_sectors" := JInt w]> ∅))]>
   (<["network" := JObj (<["rx_bytes" := JInt rx]>
                         (<["tx_bytes" := JInt tx]> ∅))]> ∅)).

Definition snapshot_100 : gmap string json := snapshot 100 1000 500 2000 1000.
Definition snapshot_110 : gmap string json := snapshot 110 1100 550 2500 1300.

(** The fields of a group of a snapshot; none when the group is absent. *)
Definition group_dict (snap : gmap string json) (g : string)
  : gmap string json :=
  match snap !! g with
  | Some (JObj d) => d
  | _ => ∅
  end.

(** A sample with a timestamp and no group at all. *)
Definition bare_sample : gmap string json := <["ts" := JInt 7]> ∅.

(** The processor after [snapshot_100] and [snapshot_110] were accepted. *)
Definition after_two : processor :=
  (run (init 30) [snapshot_100; snapshot_110]).1.

(** The number an element of an array is ranked by: its timestamp, and 0
    for an element that is no [dict] or has none. *)
Definition ts_rank (x : json) : Q := default 0%Q (py_num (ts_key x)).

(** An element the poller can rank and forward: a [dict] whose timestamp,
    when it has one, is a number. *)
Definition rankable (x : json) : Prop :=
  (∃ d, x = JObj d) ∧ is_Some (py_num (ts_key x)).








(** The array of the poller's scenario: timestamps 5, 9 and 7. *)
Definition batch_5_9_7 : list json :=
  [JObj (<["ts" := JInt 5]> ∅); JObj (<["ts" := JInt 9]> ∅);
   JObj (<["ts" := JInt 7]> ∅)].

(* ===================================================================== *)
(** * The processor on a store of objects

    The functions above work on values.  The module below repeats the two
    methods that copy on a store in which a [dict] and a [list] are
    objects with an identity, so that two references can name one object
    and a mutation through one is seen through the other. *)
(* ===================================================================== *)

Module Store.

Abbreviation loc := nat.

(** A value is immutable data or a reference to an object of the store. *)
Inductive pyval :=
| VNone
| VBool (b : bool)
| VInt (z : Z)
| VFloat (q : Q)
| VStr (s : string)
| VRef (l : loc).

(** A [dict] keeps its items in insertion order. *)
Inductive pyobj :=
| ODict (d : list (string * pyval))
| OList (xs : list pyval).

(** The store: an object's address is its index; allocation appends. *)
Abbreviation heap := (list pyobj).

Definition obj_vals (o : pyobj) : list pyval :=
  match o with
  | ODict d => d.*2
  | OList xs => xs
  end.

Fixpoint dict_get (d : list (string * pyval)) (k : string) : option pyval :=
  match d with
  | [] => None
  | (k', v) :: d' => if String.eqb k k' then Some v else dict_get d' k
  end.

(** [d[k] = v]: the item is replaced in place, or added at the end. *)
Fixpoint dict_set (d : list (string * pyval)) (k : string) (v : pyval)
  : list (string * pyval) :=
  match d with
  | [] => [(k, v)]
  | (k', v') :: d' =>
      if String.eqb k k' then (k', v) :: d' else (k', v') :: dict_set d' k v
  end.

(** Immutable data as the [json] value it is, and back. *)
Definition scalar (v : pyval) : option json :=
  match v with
  | VNone => Some JNull
  | VBool b => Some (JBool b)
  | VInt z => Some (JInt z)
  | VFloat q => Some (JFloat q)
  | VStr s => Some (JStr s)
  | VRef _ => None
  end.

Definition of_scalar (j : json) : pyval :=
  match j with
  | JBool b => VBool b
  | JInt z => VInt z
  | JFloat q => VFloat q
  | JStr s => VStr s
  | _ => VNone
  end.

(** The tree a value unfolds to, when [fuel] levels of references reach
    its leaves. *)
Fixpoint reify (fuel : nat) (h : heap) (v : pyval) : option json :=
  match v with
  | VRef l =>
      match fuel with
      | O => None
      | S fuel' =>
          match h !! l with
          | Some (ODict d) =>
              vs ← mapM (reify fuel' h) d.*2;
              Some (JObj (list_to_map (zip d.*1 vs)))
          | Some (OList xs) => JArr <$> mapM (reify fuel' h) xs
          | None => None
          end
      end
  | _ => scalar v
  end.

(** Building the objects of a tree, as [json.loads] does. *)
Fixpoint alloc_json (j : json) (h : heap) : heap * pyval :=
  match j with
  | JArr xs =>
      let '(h', vs) :=
        foldr (λ x acc, let '(h1, vs) := acc in
                        let '(h2, v) := alloc_json x h1 in (h2, v :: vs))
              (h, []) xs in
      (h' ++ [OList vs], VRef (length h'))
  | JObj d =>
      let '(h', items) :=
        map_fold (λ k x acc, let '(h1, items) := acc in
                             let '(h2, v) := alloc_json x h1 in
                             (h2, (k, v) :: items))
                 (h, []) d in
      (h' ++ [ODict items], VRef (length h'))
  | _ => (h, of_scalar j)
  end.

(* --------------------------------------------------------------------- *)
(** ** Computations on the store *)

(** A computation reads and writes the store and returns or raises; [None]
    is a computation the model does not follow: a reference to no object,
    or a copy or comparison deeper than the fuel. *)
Definition M (A : Type) : Type := heap → option (heap * result A).

Definition ret {A : Type} (a : A) : M A := λ h, Some (h, Ok a).

Definition bind {A B : Type} (m : M A) (f : A → M B) : M B :=
  λ h, match m h with
       | Some (h', Ok a) => f a h'
       | Some (h', Raise e) => Some (h', Raise e)
       | None => None
       end.

Definition raise {A : Type} (e : exn) : M A := λ h, Some (h, Raise e).

Definition stuck {A : Type} : M A := λ _, None.

Definition lift {A : Type} (r : result A) : M A := λ h, Some (h, r).

Definition alloc (o : pyobj) : M loc := λ h, Some (h ++ [o], Ok (length h)).

Definition load (l : loc) : M pyobj :=
  λ h, match h !! l with
       | Some o => Some (h, Ok o)
       | None => None
       end.

Definition store (l : loc) (o : pyobj) : M unit :=
  λ h, match h !! l with
       | Some _ => Some (<[l := o]> h, Ok tt)
       | None => None
       end.

Notation "x <- m ;; k" := (bind m (λ x, k))
  (at level 100, m at next level, right associativity).

(** The [dict] a reference names; [e] is raised for any other value. *)
Definition load_dict (e : exn) (v : pyval) : M (list (string * pyval)) :=
  match v with
  | VRef l =>
      o <- load l;;
      match o with
      | ODict d => ret d
      | OList _ => raise e
      end
  | _ => raise e
  end.

(* --------------------------------------------------------------------- *)
(** ** copy.deepcopy *)

Fixpoint memo_get (memo : list (loc * loc)) (l : loc) : option loc :=
  match memo with
  | [] => None
  | (a, b) :: memo' => if Nat.eqb l a then Some b else memo_get memo' l
  end.

(** The items of a container are copied from left to right, the memo
    going from one to the next. *)
Fixpoint copy_all (copy : list (loc * loc) → pyval → M (list (loc * loc) * pyval))
    (memo : list (loc * loc)) (vs : list pyval)
  : M (list (loc * loc) * list pyval) :=
  match vs with
  | [] => ret (memo, [])
  | v :: vs' =>
      r <- copy memo v;;
      rs <- copy_all copy r.1 vs';;
      ret (rs.1, r.2 :: rs.2)
  end.

(** [copy.deepcopy(v, memo)]: immutable data is returned as it is; an
    object already in the memo is answered by its copy; any other object
    gets a new, empty copy, which is entered in the memo before the items
    are copied into it. *)
Fixpoint deepcopy (fuel : nat) (memo : list (loc * loc)) (v : pyval)
  : M (list (loc * loc) * pyval) :=
  match v with
  | VRef l =>
      match memo_get memo l with
      | Some l' => ret (memo, VRef l')
      | None =>
          match fuel with
          | O => stuck
          | S fuel' =>
              o <- load l;;
              match o with
              | ODict d =>
                  l' <- alloc (ODict []);;
                  r <- copy_all (deepcopy fuel') ((l, l') :: memo) d.*2;;
                  _ <- store l' (ODict (zip d.*1 r.2));;
                  ret (r.1, VRef l')
              | OList xs =>
                  l' <- alloc (OList []);;
                  r <- copy_all (deepcopy fuel') ((l, l') :: memo) xs;;
                  _ <- store l' (OList r.2);;
                  ret (r.1, VRef l')
              end
          end
      end
  | _ => ret (memo, v)
  end.

(** [copy.deepcopy(x)] of a [dict]. *)
Definition deepcopy_dict (fuel : nat) (l : loc) : M loc :=
  r <- deepcopy fuel [] (VRef l);;
  match r.2 with
  | VRef l' => ret l'
  | _ => stuck
  end.

(* --------------------------------------------------------------------- *)
(** ** Operators on values *)

(** [a <= b], [a > b]: on the trees the operands unfold to. *)
Definition val_cmp (fuel : nat) (op : cmp_op) (a b : pyval) : M bool :=
  λ h, match reify fuel h a, reify fuel h b with
       | Some x, Some y => Some (h, py_cmp op x y)
       | _, _ => None
       end.

(** [a - b], [a / b]: a [dict] or a [list] supports neither. *)
Definition val_sub (a b : pyval) : result pyval :=
  match scalar a, scalar b with
  | Some x, Some y => of_scalar <$> py_sub x y
  | _, _ => Raise TypeError
  end.

Definition val_truediv (a b : pyval) : result pyval :=
  match scalar a, scalar b with
  | Some x, Some y => of_scalar <$> py_truediv x y
  | _, _ => Raise TypeError
  end.

(* --------------------------------------------------------------------- *)
(** ** StatelessMetricsProcessor *)

(** The fields of [self].  [latest_sample] is a reference to the [dict]
    the processor keeps; [last_counter_values] is a [dict] only the
    processor holds, so its items are kept here. *)
Record processor := Processor {
  latest_sample : option loc;
  last_seen_ts : pyval;
  last_counter_values : list (string * pyval);
  last_counter_ts : pyval;
  max_age_seconds : Z
}.

Definition init (max_age : Z) : processor :=
  {| latest_sample := None;
     last_seen_ts := VNone;
     last_counter_values := [];
     last_counter_ts := VNone;
     max_age_seconds := max_age |}.

(** [x.get(g, {}).get(f, 0)] on the [dict] at [l]. *)
Definition counter_field (l : loc) (g f : string) : M pyval :=
  d <- load_dict AttributeError (VRef l);;
  match dict_get d g with
  | None => ret (VInt 0)
  | Some group =>
      fields <- load_dict AttributeError group;;
      ret (default (VInt 0) (dict_get fields f))
  end.

Definition not_advancing (fuel : nat) (self : processor) (sample_ts : pyval)
  : M bool :=
  match last_seen_ts self with
  | VNone => ret false
  | seen => val_cmp fuel OpLe sample_ts seen
  end.

Definition store_previous (self : processor) : M processor :=
  match latest_sample self with
  | None => ret self
  | Some prev =>
      r <- counter_field prev "disk" "read_sectors";;
      w <- counter_field prev "disk" "write_sectors";;
      rx <- counter_field prev "network" "rx_bytes";;
      tx <- counter_field prev "network" "tx_bytes";;
      ret {| latest_sample := latest_sample self;
             last_seen_ts := last_seen_ts self;
             last_counter_values :=
               [("disk.read_sectors", r); ("disk.write_sectors", w);
                ("network.rx_bytes", rx); ("network.tx_bytes", tx)];
             last_counter_ts := last_seen_ts self;
             max_age_seconds := max_age_seconds self |}
  end.

(** [update(sample)], [sample] a reference to the caller's [dict].  An
    exception leaves [self] as it was. *)
Definition update (fuel : nat) (self : processor) (sample : loc)
  : M (processor * bool) :=
  d <- load_dict AttributeError (VRef sample);;
  let sample_ts := default VNone (dict_get d "ts") in
  match sample_ts with
  | VNone => ret (self, false)
  | _ =>
      stale <- not_advancing fuel self sample_ts;;
      if stale : bool then ret (self, false)
      else
        self1 <- store_previous self;;
        copy <- deepcopy_dict fuel sample;;
        ret ({| latest_sample := Some copy;
                last_seen_ts := sample_ts;
                last_counter_values := last_counter_values self1;
                last_counter_ts := last_counter_ts self1;
                max_age_seconds := max_age_seconds self1 |}, true)
  end.

Inductive rate_branch :=
| RatesFromDelta (time_delta : pyval)
| ZeroInvalidDelta
| ZeroNoPrevious.

(** [time_delta > 0]. *)
Definition val_positive (time_delta : pyval) : result bool :=
  match scalar time_delta with
  | Some x => py_cmp OpGt x (JInt 0)
  | None => Raise TypeError
  end.

Definition select_branch (self : processor) : result rate_branch :=
  match last_counter_ts self, last_seen_ts self with
  | VNone, _ | _, VNone => Ok ZeroNoPrevious
  | counter_ts, seen_ts =>
      time_delta ← val_sub seen_ts counter_ts;
      positive ← val_positive time_delta;
      Ok (if positive : bool then RatesFromDelta time_delta
          else ZeroInvalidDelta)
  end.

(** [if g not in output: output[g] = {}]. *)
Definition ensure_group (output : loc) (g : string) : M unit :=
  d <- load_dict AttributeError (VRef output);;
  match dict_get d g with
  | Some _ => ret tt
  | None =>
      group <- alloc (ODict []);;
      store output (ODict (dict_set d g (VRef group)))
  end.

(** [output[g][f] = v]. *)
Definition setitem2 (output : loc) (g f : string) (v : pyval) : M unit :=
  d <- load_dict TypeError (VRef output);;
  match dict_get d g with
  | None => raise KeyError
  | Some (VRef group) =>
      o <- load group;;
      match o with
      | ODict fields => store group (ODict (dict_set fields f v))
      | OList _ => raise TypeError
      end
  | Some _ => raise TypeError
  end.

Definition derive_group (self : processor) (time_delta : pyval)
    (output : loc) (g f1 f2 : string) : M unit :=
  _ <- ensure_group output g;;
  current1 <- counter_field output g f1;;
  current2 <- counter_field output g f2;;
  let prev1 :=
    default (VInt 0) (dict_get (last_counter_values self) (g +:+ "." +:+ f1)) in
  let prev2 :=
    default (VInt 0) (dict_get (last_counter_values self) (g +:+ "." +:+ f2)) in
  d1 <- lift (val_sub current1 prev1);;
  rate1 <- lift (val_truediv d1 time_delta);;
  _ <- setitem2 output g (f1 +:+ "_rate") rate1;;
  d2 <- lift (val_sub current2 prev2);;
  rate2 <- lift (val_truediv d2 time_delta);;
  setitem2 output g (f2 +:+ "_rate") rate2.

Definition zero_group (output : loc) (g f1 f2 : string) : M unit :=
  _ <- ensure_group output g;;
  _ <- setitem2 output g (f1 +:+ "_rate") (VFloat 0);;
  setitem2 output g (f2 +:+ "_rate") (VFloat 0).

Definition zero_rates (output : loc) : M unit :=
  _ <- zero_group output "disk" "read_sectors" "write_sectors";;
  zero_group output "network" "rx_bytes" "tx_bytes".

(** [get_latest_with_derived()]: the result is a reference to the [dict]
    built for this call. *)
Definition get_latest_with_derived (fuel : nat) (self : processor)
  : M (option loc) :=
  match latest_sample self with
  | None => ret None
  | Some latest =>
      output <- deepcopy_dict fuel latest;;
      branch <- lift (select_branch self);;
      _ <- match branch with
           | RatesFromDelta time_delta =>
               _ <- derive_group self time_delta output
                      "disk" "read_sectors" "write_sectors";;
               derive_group self time_delta output
                 "network" "rx_bytes" "tx_bytes"
           | ZeroInvalidDelta => zero_rates output
           | ZeroNoPrevious => zero_rates output
           end;;
      ret (Some output)
  end.

(* --------------------------------------------------------------------- *)
(** ** Regions of the store *)

(** A value that names no object below address [n]. *)
Definition fresh (n : nat) (v : pyval) : Prop :=
  match v with
  | VRef l => n ≤ l
  | _ => True
  end.

(** A value that names no object at or above address [n]. *)
Definition below (n : nat) (v : pyval) : Prop :=
  match v with
  | VRef l => l < n
  | _ => True
  end.

(** The objects from address [n] on refer to one another only. *)
Definition closed (n : nat) (h : heap) : Prop :=
  ∀ l o, n ≤ l → h !! l = Some o → Forall (fresh n) (obj_vals o).

Definition inv (n : nat) (h : heap) : Prop := n ≤ length h ∧ closed n h.


(** [v'] is what the memo answers for [v]. *)
Definition copy_rel (memo : list (loc * loc)) (v v' : pyval) : Prop :=
  match v with
  | VRef l => ∃ l', memo_get memo l = Some l' ∧ v' = VRef l'
  | _ => v' = v
  end.

(** Two objects with the same keys whose items answer one another. *)
Definition obj_rel (memo : list (loc * loc)) (o o' : pyobj) : Prop :=
  match o, o' with
  | ODict d, ODict d' => d.*1 = d'.*1 ∧ Forall2 (copy_rel memo) d.*2 d'.*2
  | OList xs, OList xs' => Forall2 (copy_rel memo) xs xs'
  | _, _ => False
  end.

(** The memo while a copy is under way: it sends objects below [n] to
    objects from [n] on, and is one to one; a copy is either still being
    filled (it is in [pending]) or holds the items of its original. *)
Definition memo_ok (n : nat) (pending : list loc) (memo : list (loc * loc))
    (h : heap) : Prop :=
  ∀ l l', memo_get memo l = Some l' →
    l < n ∧ n ≤ l' ∧ l' < length h ∧
    (l' ∈ pending ∨
     ∃ o o', h !! l = Some o ∧ h !! l' = Some o' ∧ obj_rel memo o o').

Definition memo_inj (memo : list (loc * loc)) : Prop :=
  ∀ a b c, memo_get memo a = Some c → memo_get memo b = Some c → a = b.

Definition memo_ext (memo memo' : list (loc * loc)) : Prop :=
  ∀ l l', memo_get memo l = Some l' → memo_get memo' l = Some l'.

(** The objects below [n] refer to objects below [n]. *)
Definition wf_below (n : nat) (h : heap) : Prop :=
  ∀ l o, l < n → h !! l = Some o → Forall (below n) (obj_vals o).

(** The objects from [n] on refer to objects of the store. *)
Definition wf_above (n : nat) (h : heap) : Prop :=
  ∀ l o, n ≤ l → h !! l = Some o → Forall (below (length h)) (obj_vals o).

Definition copy_pre (n : nat) (pending : list loc) (memo : list (loc * loc))
    (h : heap) : Prop :=
  wf_below n h ∧ n ≤ length h ∧ memo_ok n pending memo h ∧ memo_inj memo ∧
  Forall (λ p, p < length h) pending ∧ wf_above n h.

(** What a step of the copy owes: the memo it returns extends the one it
    got and answers [v] by the value returned, and no object below [n] is
    touched. *)
Definition copies (n : nat) (pending : list loc)
    (m : M (list (loc * loc) * pyval)) (memo : list (loc * loc))
    (v : pyval) : Prop :=
  ∀ h h' r, copy_pre n pending memo h → m h = Some (h', r) →
    ∃ memo' v', r = Ok (memo', v') ∧ copy_pre n pending memo' h' ∧
      memo_ext memo memo' ∧ copy_rel memo' v v' ∧
      (∀ l, l < n → h' !! l = h !! l) ∧ length h ≤ length h'.

(** How many objects below [n] the memo does not answer yet: what bounds
    the depth of the copies still to be made. *)
Definition unanswered (n : nat) (memo : list (loc * loc)) : nat :=
  length (filter (λ l, memo_get memo l = None) (seq 0 n)).

(** A computation that only reads the store. *)
Definition readonly {A : Type} (m : M A) : Prop :=
  ∀ h h' r, m h = Some (h', r) → h' = h.

(** Every reference of the store names an object of the store. *)
Definition wf (h : heap) : Prop :=
  ∀ l o, h !! l = Some o → Forall (below (length h)) (obj_vals o).

Definition wfb (h : heap) : bool :=
  forallb (λ o, forallb (λ v, match v with
                              | VRef l => Nat.ltb l (length h)
                              | _ => true
                              end) (obj_vals o)) h.

(** A store that has every object of another, each of the same kind. *)
Definition same_kind (o o' : pyobj) : Prop :=
  match o, o' with
  | ODict _, ODict _ | OList _, OList _ => True
  | _, _ => False
  end.

Definition extends (h h' : heap) : Prop :=
  ∀ l o, h !! l = Some o → ∃ o', h' !! l = Some o' ∧ same_kind o o'.

Definition is_dict (h : heap) (l : loc) : Prop :=
  ∃ d, h !! l = Some (ODict d).

(** A computation that, started in a well-formed store satisfying [P],
    returns or raises, in a well-formed store that has the objects of the
    first; what it returns satisfies [Q]. *)
Definition total {A : Type} (P : heap → Prop) (m : M A)
    (Q : heap → A → Prop) : Prop :=
  ∀ h, wf h → P h →
    ∃ h' r, m h = Some (h', r) ∧ wf h' ∧ extends h h' ∧
            ∀ a, r = Ok a → Q h' a.

(** Two stores of one size with the same objects from address [n] on: what
    a store becomes when objects below [n] are mutated in place. *)
Definition agree (n : nat) (ha hb : heap) : Prop :=
  length ha = length hb ∧ ∀ l, n ≤ l → ha !! l = hb !! l.

(** A computation that, started in a store whose objects from [n] on are
    closed, keeps them closed, leaves every object below [n] as it is,
    frees nothing, and returns a value satisfying [Q]. *)
Definition frame {A : Type} (n : nat) (Q : A → Prop) (m : M A) : Prop :=
  ∀ h h' r, inv n h → m h = Some (h', r) →
    inv n h' ∧ (∀ l, l < n → h' !! l = h !! l) ∧ length h ≤ length h' ∧
    ∀ a, r = Ok a → Q a.

(** A computation whose outcome does not depend on the objects below
    [n]. *)
Definition local {A : Type} (n : nat) (m : M A) : Prop :=
  ∀ ha hb, inv n ha → agree n ha hb →
    match m ha, m hb with
    | Some (ha', ra), Some (hb', rb) => ra = rb ∧ agree n ha' hb'
    | None, None => True
    | _, _ => False
    end.

(** The tree of what [get_latest_with_derived] returns. *)
Definition observe (fuel : nat) (self : processor) (h : heap) : option json :=
  match get_latest_with_derived fuel self h with
  | Some (h', Ok (Some out)) => reify fuel h' (VRef out)
  | _ => None
  end.

End Store.

(** The caller's objects in the scenarios below: the two snapshots, built
    one after the other in an empty store. *)
Definition caller_heap : Store.heap :=
  (Store.alloc_json (JObj snapshot_110)
     (Store.alloc_json (JObj snapshot_100) []).1).1.

(** The store and the processor after [update] was called on the first
    snapshot, the object at address 2. *)
Definition stored_heap : Store.heap :=
  Eval vm_compute in
    match Store.update 4 (Store.init 30) 2 caller_heap with
    | Some (h', _) => h'
    | None => []
    end.

Definition stored_processor : Store.processor :=
  Eval vm_compute in
    match Store.update 4 (Store.init 30) 2 caller_heap with
    | Some (_, Ok (self', _)) => self'
    | _ => Store.init 30
    end.

(** The caller then empties the snapshot it passed and the [disk] group
    of it. *)
Definition mutated_heap : Store.heap :=
  <[2 := Store.ODict []]> (<[0 := Store.ODict [("read_sectors", Store.VInt 0)]]> stored_heap).

(* ===================================================================== *)
(** * _fetch_metrics_sync and the polling loop *)
(* ===================================================================== *)

(** What [urlopen] gives: a response with its status and its body, a
    [URLError], or another exception. *)
Inductive upstream :=
| UpstreamResponse (status : Z) (body : string)
| UpstreamURLError
| UpstreamException.

Section Poller.
(** [json.loads(data.decode('utf-8'))]; [None] when either call raises. *)
Variable loads : string → option json.

(** [_fetch_metrics_sync]: the value parsed from the body of a response
    with status 200; [None] for any other status and when an exception is
    caught. *)
Definition _fetch_metrics_sync (resp : upstream) : json :=
  match resp with
  | UpstreamResponse status body =>
      if (status =? 200)%Z then default JNull (loads body) else JNull
  | UpstreamURLError => JNull
  | UpstreamException => JNull
  end.

(** The iterations of the [while True] loop of [poll_upstream_metrics], one
    for each outcome of the fetch: the processor after the last one and
    the lines logged. *)
Fixpoint poll_upstream_metrics (processor0 : processor)
    (fetches : list upstream) : processor * list poll_log :=
  match fetches with
  | [] => (processor0, [])
  | resp :: rest =>
      let out := poll_once processor0 (_fetch_metrics_sync resp) in
      let '(p, logs) := poll_upstream_metrics (poll_processor out) rest in
      (p, poll_logged out :: logs)
  end.
End Poller.

(* ===================================================================== *)
(** * monitor/web_server.py: events, info and the refresh loop *)
(* ===================================================================== *)

(** The events file as [load_events] finds it. *)
Inductive events_file :=
| EventsMissing
| EventsContent (content : string)
| EventsUnreadable.

(** The module's globals, [events_cache] included. *)
Record monitor := Monitor {
  monitor_relay : relay;
  events_cache : string
}.

Definition monitor_start : monitor :=
  {| monitor_relay := relay_start; events_cache := "" |}.

(** What a handler of the relay sends: a response as above, or
    [send_response] with a plain text body. *)
Inductive reply :=
| Reply (r : response)
| TextReply (status : Z) (body : string).

(** What the files hold and what the clock shows when a refresh runs. *)
Record tick := Tick {
  tick_metrics : metrics_file;
  tick_events : events_file;
  tick_now : Q
}.

Definition load_events (file : events_file) (globals : monitor) : monitor :=
  match file with
  | EventsUnreadable => globals
  | EventsMissing =>
      {| monitor_relay := monitor_relay globals; events_cache := "" |}
  | EventsContent content =>
      {| monitor_relay := monitor_relay globals; events_cache := content |}
  end.

Definition serve_events (globals : monitor) : reply :=
  TextReply 200 (events_cache globals).

Section Monitor.
Variable loads : string → option json.
Variable strip : string → string.
Variable dict_of_pairs : json → result (gmap string json).
(** The two paths, which depend on the environment. *)
Variable METRICS_FILE : string.
Variable EVENTS_FILE : string.

(** [serve_info]; [last_refresh] is the [int] 0 until the first refresh and
    a [float] afterwards, the same number either way. *)
Definition serve_info (globals : monitor) : response :=
  JsonResponse 200
    (JObj
       (<["endpoints" :=
            JObj (<["/latest" := JStr "Latest metric snapshot as JSON"]>
                  (<["/events" := JStr "Job events log as plain text"]> ∅))]>
        (<["metrics_file" := JStr METRICS_FILE]>
         (<["events_file" := JStr EVENTS_FILE]>
          (<["refresh_interval_seconds" := JInt 15]>
           (<["last_refresh" :=
                JFloat (last_refresh (monitor_relay globals))]>
            (<["metrics_count" :=
                 JInt (Z.of_nat
                         (length (metrics_cache (monitor_relay globals))))]>
             ∅))))))).

(** [MetricsHandler.do_GET], on the path component of the request. *)
Definition MetricsHandler_do_GET (globals : monitor) (path : string) : reply :=
  if String.eqb path "/latest" || String.eqb path "/latest.json" then
    Reply (serve_latest_metric dict_of_pairs (monitor_relay globals))
  else if String.eqb path "/events" || String.eqb path "/events.log" then
    serve_events globals
  else if String.eqb path "/" then Reply (serve_info globals)
  else Reply (ErrorResponse 404 NoMessage).

(** [load_metrics()] followed by [load_events()]: what [main] does first
    and [refresh_loop] does after each sleep. *)
Definition refresh (t : tick) (globals : monitor) : monitor :=
  load_events (tick_events t)
    {| monitor_relay :=
         load_metrics loads strip (tick_metrics t) (tick_now t)
           (monitor_relay globals);
       events_cache := events_cache globals |}.

(** The iterations of [refresh_loop], one for each tick. *)
Fixpoint refresh_loop (ticks : list tick) (globals : monitor) : monitor :=
  match ticks with
  | [] => globals
  | t :: rest => refresh_loop rest (refresh t globals)
  end.

(** [main]: the initial load, then the loop. *)
Definition relay_main (first : tick) (ticks : list tick) : monitor :=
  refresh_loop ticks (refresh first monitor_start).

(** What a line of the metrics file adds to the cache: the value it parses
    to, nothing when it is blank or does not parse. *)
Definition parse_line (line : string) : option json :=
  if String.eqb (strip line) "" then None else loads (strip line).
End Monitor.

(* ===================================================================== *)
(** * The script of the dashboard page: updateChart *)
(* ===================================================================== *)

(** The part of a Chart.js chart the script touches: [chart.data.labels]
    and the [data] of each of [chart.data.datasets]. *)
Record chart := Chart {
  chart_labels : list string;
  chart_datasets : list (list json)
}.

(** [value.forEach((v,i)=>chart.data.datasets[i].data.push(v))], from
    index [i] on: a dataset that does not exist stops the loop with a
    [TypeError], after the pushes made so far. *)
Fixpoint push_values (values : list json) (i : nat)
    (datasets : list (list json)) : list (list json) * result unit :=
  match values with
  | [] => (datasets, Ok tt)
  | v :: rest =>
      match datasets !! i with
      | Some data => push_values rest (S i) (<[i := data ++ [v]]> datasets)
      | None => (datasets, Raise TypeError)
      end
  end.

(** [updateChart(chart,value,label,multi)]: the chart afterwards, redrawn
    by [chart.update], and the exception when a push failed.  An array
    [value] is spread over the datasets when [multi] is set; any other
    [value] goes to the first dataset.  With more than 20 labels the oldest
    label and the oldest point of every dataset are dropped; [shift] on an
    empty array does nothing. *)
Definition updateChart (c : chart) (value : json) (label : string)
    (multi : bool) : chart * result unit :=
  let labels := chart_labels c ++ [label] in
  let pushed :=
    match multi, value with
    | true, JArr values => push_values values 0 (chart_datasets c)
    | _, _ => push_values [value] 0 (chart_datasets c)
    end in
  match pushed.2 with
  | Raise e =>
      ({| chart_labels := labels; chart_datasets := pushed.1 |}, Raise e)
  | Ok _ =>
      if Nat.ltb 20 (length labels) then
        ({| chart_labels := tail labels;
            chart_datasets := tail <$> pushed.1 |}, Ok tt)
      else ({| chart_labels := labels; chart_datasets := pushed.1 |}, Ok tt)
  end.

(* ===================================================================== *)
(** * Vocabulary of the further statements *)
(* ===================================================================== *)

(** A chart with one point in every dataset for every label. *)
Definition aligned (c : chart) : Prop :=
  Forall (λ data : list json, length data = length (chart_labels c))
    (chart_datasets c).

(** The last [n] elements of a list, all of it when it has fewer. *)
Definition last_n {A : Type} (n : nat) (l : list A) : list A :=
  drop (length l - n) l.

(** The points a call of [updateChart] adds, one for each dataset. *)
Definition points_of (value : json) (multi : bool) : list json :=
  match multi, value with
  | true, JArr values => values
  | _, _ => [value]
  end.

(** The chart of the disk rates after two polls. *)
Definition disk_chart : chart :=
  {| chart_labels := ["10:00:00"; "10:00:15"];
     chart_datasets := [[JInt 10; JInt 12]; [JInt 5; JInt 6]] |}.

(** The paths [DashboardHandler.do_GET] serves. *)
Definition dashboard_paths : list string :=
  ["/"; "/index.html"; "/metrics"; "/health"].

(** The paths [MetricsHandler.do_GET] serves. *)
Definition relay_paths : list string :=
  ["/latest"; "/latest.json"; "/events"; "/events.log"; "/"].

(** A log line for an accepted sample. *)
Definition is_log_accepted (l : poll_log) : bool :=
  match l with
  | LogAccepted _ => true
  | _ => false
  end.

(** A value that is a JSON object. *)
Definition is_object (v : json) : Prop := ∃ d, v = JObj d.



(** What [get_latest_with_derived] returns after the two snapshots. *)
Definition derived_after_two : gmap string json :=
  match get_latest_with_derived after_two with
  | Ok (Some out) => out
  | _ => ∅
  end.

(** A fetch that hands the loop nothing: [_fetch_metrics_sync] returned
    [None]. *)
Definition fetch_failed (loads : string → option json) (resp : upstream)
  : bool :=
  match _fetch_metrics_sync loads resp with
  | JNull => true
  | _ => false
  end.

(** The items of the first snapshot in the caller's store. *)
Definition caller_sample : list (string * Store.pyval) :=
  match caller_heap !! 2%nat with
  | Some (Store.ODict d) => d
  | _ => []
  end.

(* ===================================================================== *)
(** * Properties of the Python values *)
(* ===================================================================== *)

Lemma json_size_elem (l : list json) (x : json) :
  x ∈ l → json_size x < json_size (JArr l).
Proof.
  simpl. induction 1 as [x l | x y l _ IH]; simpl; lia.
Qed.

Lemma json_size_entry (d : gmap string json) (k : string) (v : json) :
  d !! k = Some v → json_size v < json_size (JObj d).
Proof.
  intros Hk. simpl.
  rewrite (map_fold_delete_L _ _ k v d); [lia | | done].
  intros; lia.
Qed.

(** Induction on a [json] tree, with the hypothesis for every element of an
    array and every value of an object. *)
Lemma json_tree_ind (P : json → Prop) :
  P JNull →
  (∀ b, P (JBool b)) →
  (∀ z, P (JInt z)) →
  (∀ q, P (JFloat q)) →
  (∀ s, P (JStr s)) →
  (∀ l, Forall P l → P (JArr l)) →
  (∀ d, map_Forall (λ _, P) d → P (JObj d)) →
  ∀ j, P j.
Proof.
  intros HN HB HI HF HS HA HO j.
  remember (json_size j) as n eqn:Hn. revert j Hn.
  induction n as [n IH] using lt_wf_ind. intros j ->.
  destruct j as [| | | | |l|d]; auto.
  - apply HA, Forall_forall. intros x Hx.
    apply (IH (json_size x)); [by apply json_size_elem | done].
  - apply HO. intros k v Hk.
    apply (IH (json_size v)); [by apply (json_size_entry d k) | done].
Qed.

Lemma deepcopy_id (j : json) : deepcopy j = j.
Proof.
  induction j as [| | | | |l IH|d IH] using json_tree_ind; simpl; try done.
  - f_equal. induction IH as [|x l Hx _ IHl]; simpl; [done | by f_equal].
  - f_equal. apply map_eq. intros k. rewrite lookup_fmap.
    destruct (d !! k) as [v|] eqn:Hk; simpl; [|done].
    f_equal. by apply (IH k).
Qed.

Lemma deepcopy_dict_id (d : gmap string json) : deepcopy_dict d = d.
Proof.
  pose proof (deepcopy_id (JObj d)) as H. simpl in H. by injection H.
Qed.


(* ===================================================================== *)
(** * Arithmetic and comparison on numbers *)
(* ===================================================================== *)

Lemma py_cmp_num (op : cmp_op) (a b : json) (x y : Q) :
  py_num a = Some x → py_num b = Some y →
  py_cmp op a b = Ok (num_cmp op x y).
Proof.
  intros Ha Hb.
  destruct a; simpl in Ha; try discriminate;
    destruct b; simpl in Hb; try discriminate;
    simpl; congruence.
Qed.


Lemma inject_Z_sub (x y : Z) : (inject_Z (x - y) == inject_Z x - inject_Z y)%Q.
Proof. unfold Qeq, Qminus, inject_Z. simpl. lia. Qed.

Lemma py_sub_num (a b : json) (x y : Q) :
  py_num a = Some x → py_num b = Some y →
  ∃ v r, py_sub a b = Ok v ∧ py_num v = Some r ∧ (r == x - y)%Q.
Proof.
  intros Ha Hb. unfold py_sub.
  destruct a; simpl in Ha; try discriminate;
    destruct b; simpl in Hb; try discriminate;
    simplify_eq; simpl; eexists _, _; (split; [reflexivity|]);
    simpl; (split; [reflexivity|]);
    try reflexivity; apply inject_Z_sub.
Qed.


Lemma num_cmp_le_false (x y : Q) : num_cmp OpLe x y = false ↔ (y < x)%Q.
Proof.
  simpl. split.
  - intros H. apply Qnot_le_lt. intros Hle.
    apply Qle_bool_iff in Hle. congruence.
  - intros H. destruct (Qle_bool x y) eqn:E; [|done].
    apply Qle_bool_iff in E. by apply Qlt_not_le in H.
Qed.

Lemma num_cmp_gt (x y : Q) : num_cmp OpGt x y = true ↔ (y < x)%Q.
Proof.
  unfold num_cmp. rewrite negb_true_iff. apply num_cmp_le_false.
Qed.

(* ===================================================================== *)
(** * update *)
(* ===================================================================== *)

(** The state a call leaves when it is accepted. *)
Lemma update_accepted (self self' : processor) (sample : gmap string json) :
  update self sample = (self', Ok true) →
  ∃ sample_ts self1,
    sample !! "ts" = Some sample_ts ∧ sample_ts ≠ JNull ∧
    not_advancing self sample_ts = Ok false ∧
    store_previous self = Ok self1 ∧
    self' = {| latest_sample := Some sample;
               last_seen_ts := sample_ts;
               last_counter_values := last_counter_values self1;
               last_counter_ts := last_counter_ts self1;
               max_age_seconds := max_age_seconds self1 |}.
Proof.
  unfold update. rewrite deepcopy_dict_id.
  destruct (sample !! "ts") as [sample_ts|] eqn:Hts; simpl; [|congruence].
  intros H. exists sample_ts.
  destruct (not_advancing self sample_ts) as [[]|] eqn:Hadv;
    [destruct sample_ts; congruence| |destruct sample_ts; congruence].
  destruct (store_previous self) as [self1|] eqn:Hprev;
    [|destruct sample_ts; congruence].
  exists self1.
  destruct sample_ts; simplify_eq; done.
Qed.

(** Any other outcome leaves the processor as it was. *)
Lemma update_not_accepted (self : processor) (sample : gmap string json) :
  (update self sample).2 ≠ Ok true → (update self sample).1 = self.
Proof.
  unfold update.
  destruct (sample !! "ts") as [sample_ts|]; simpl; [|done].
  destruct (not_advancing self sample_ts) as [[]|];
    [by destruct sample_ts| |by destruct sample_ts].
  destruct (store_previous self) as [self1|]; by destruct sample_ts.
Qed.

Lemma store_previous_some (self self1 : processor) (prev : gmap string json) :
  latest_sample self = Some prev →
  store_previous self = Ok self1 →
  ∃ values, counters_of prev = Ok values ∧
    last_counter_values self1 = values ∧
    last_counter_ts self1 = last_seen_ts self ∧
    max_age_seconds self1 = max_age_seconds self.
Proof.
  unfold store_previous. intros ->.
  destruct (counters_of prev) as [values|]; simpl; [|done].
  intros [= <-]. by exists values.
Qed.

Lemma store_previous_none (self self1 : processor) :
  latest_sample self = None → store_previous self = Ok self1 → self1 = self.
Proof. unfold store_previous. intros ->. congruence. Qed.

Lemma consistent_init (max_age : Z) : consistent (init max_age).
Proof. by repeat split. Qed.

Lemma consistent_update (self : processor) (sample : gmap string json) :
  consistent self → consistent (update self sample).1.
Proof.
  intros Hc.
  destruct (update self sample) as [self' r] eqn:Hu.
  assert (r = Ok true ∨ r ≠ Ok true) as [->|Hr]
    by (destruct r as [[]|]; auto).
  - apply update_accepted in Hu
      as (sample_ts & self1 & Hts & Hnn & Hadv & Hprev & ->).
    simpl. split; [done|]. simpl.
    destruct Hc as [Hc1 Hc2].
    destruct (latest_sample self) as [prev|] eqn:Hl.
    + destruct (store_previous_some _ _ _ Hl Hprev) as (vs & _ & _ & -> & _).
      intros _. unfold not_advancing in Hadv.
      destruct Hc1 as [_ Hseen].
      by destruct (last_seen_ts self).
    + apply (store_previous_none _ _ Hl) in Hprev as ->.
      by destruct Hc1 as (_ & _ & ->).
  - replace self' with (update self sample).1 by by rewrite Hu.
    rewrite update_not_accepted; [done|]. by rewrite Hu.
Qed.

Lemma reachable_consistent (max_age : Z) (self : processor) :
  reachable max_age self → consistent self.
Proof.
  induction 1; [apply consistent_init | by apply consistent_update].
Qed.

(** C1: a sample without a timestamp, and a sample whose timestamp is not
    after the latest one, is rejected: [update] returns [False], every
    field of the processor is as before, and so is what
    [get_latest_with_derived] returns. *)
Theorem update_rejects_unchanged (self : processor)
    (sample : gmap string json) :
  sample !! "ts" = None ∨
  (∃ sample_ts, sample !! "ts" = Some sample_ts ∧
                last_seen_ts self ≠ JNull ∧
                py_cmp OpLe sample_ts (last_seen_ts self) = Ok true) →
  update self sample = (self, Ok false) ∧
  get_latest_with_derived (update self sample).1 =
    get_latest_with_derived self.
Proof.
  intros H.
  assert (update self sample = (self, Ok false)) as Hu.
  { unfold update. destruct H as [->|(sample_ts & -> & Hseen & Hle)]; [done|].
    simpl. unfold not_advancing.
    assert (sample_ts ≠ JNull) as Hts.
    { intros ->. by destruct (last_seen_ts self). }
    destruct (last_seen_ts self) eqn:E; try done;
      rewrite Hle; by destruct sample_ts. }
  by rewrite Hu.
Qed.

Lemma update_rejects_unchanged_witness :
  update (update (init 30) snapshot_110).1 snapshot_100 =
    ((update (init 30) snapshot_110).1, Ok false) ∧
  get_latest_with_derived
    (update (update (init 30) snapshot_110).1 snapshot_100).1 =
  get_latest_with_derived (update (init 30) snapshot_110).1.
Proof.
  apply (update_rejects_unchanged (update (init 30) snapshot_110).1
           snapshot_100).
  right. exists (JInt 100). vm_compute. repeat split; discriminate.
Defined.

(** C3: after an accepted [update], the snapshot kept is a copy of the
    sample and the timestamp kept is the sample's; when a snapshot was kept
    before, its four counters (0 for a counter its group does not have) and
    its timestamp replace the previous ones, and when none was kept the
    previous counters and their timestamp stay absent. *)
Theorem update_accepted_state (max_age : Z) (self self' : processor)
    (sample : gmap string json) :
  reachable max_age self →
  update self sample = (self', Ok true) →
  latest_sample self' = Some sample ∧
  sample !! "ts" = Some (last_seen_ts self') ∧
  match latest_sample self with
  | Some prev =>
      (∃ r w rx tx,
          counter_field prev "disk" "read_sectors" = Ok r ∧
          counter_field prev "disk" "write_sectors" = Ok w ∧
          counter_field prev "network" "rx_bytes" = Ok rx ∧
          counter_field prev "network" "tx_bytes" = Ok tx ∧
          last_counter_values self' =
            <["disk.read_sectors" := r]>
            (<["disk.write_sectors" := w]>
             (<["network.rx_bytes" := rx]>
              (<["network.tx_bytes" := tx]> ∅)))) ∧
      prev !! "ts" = Some (last_counter_ts self')
  | None =>
      last_counter_values self' = ∅ ∧ last_counter_ts self' = JNull
  end.
Proof.
  intros Hreach Hu.
  apply reachable_consistent in Hreach as [Hc _].
  apply update_accepted in Hu
    as (sample_ts & self1 & Hts & _ & _ & Hprev & ->).
  simpl. split; [done|]. split; [done|].
  destruct (latest_sample self) as [prev|] eqn:Hl.
  - destruct (store_previous_some _ _ _ Hl Hprev) as (vs & Hvs & -> & -> & _).
    destruct Hc as [Hc _]. split; [|done].
    unfold counters_of in Hvs.
    destruct (counter_field prev "disk" "read_sectors") as [r|]; [|done].
    destruct (counter_field prev "disk" "write_sectors") as [w|]; [|done].
    destruct (counter_field prev "network" "rx_bytes") as [rx|]; [|done].
    destruct (counter_field prev "network" "tx_bytes") as [tx|]; [|done].
    simpl in Hvs. injection Hvs as <-. by exists r, w, rx, tx.
  - apply (store_previous_none _ _ Hl) in Hprev as ->.
    by destruct Hc as (_ & -> & ->).
Qed.

Lemma update_accepted_state_witness :
  latest_sample (update (update (init 30) snapshot_100).1 snapshot_110).1 =
    Some snapshot_110 ∧
  last_counter_values
    (update (update (init 30) snapshot_100).1 snapshot_110).1
    !! "network.rx_bytes" = Some (JInt 2000) ∧
  last_counter_ts (update (update (init 30) snapshot_100).1 snapshot_110).1 =
    JInt 100.
Proof.
  pose proof (update_accepted_state 30 (update (init 30) snapshot_100).1
                (update (update (init 30) snapshot_100).1 snapshot_110).1
                snapshot_110
                (reachable_update 30 _ _ (reachable_init 30))
                eq_refl) as (H1 & _ & H3).
  split; [exact H1|]. vm_compute. by split.
Defined.

(* ===================================================================== *)
(** * Runs *)
(* ===================================================================== *)

Lemma run_cons (self : processor) (sample : gmap string json)
    (rest : list (gmap string json)) :
  run self (sample :: rest) =
    ((run (update self sample).1 rest).1,
     (update self sample).2 :: (run (update self sample).1 rest).2).
Proof.
  simpl. destruct (update self sample) as [self1 r]. simpl.
  by destruct (run self1 rest).
Qed.


Lemma accepted_cons (r : result bool) (rs : list (result bool)) :
  accepted (r :: rs) = (if is_accepted r then S (accepted rs) else accepted rs).
Proof. unfold accepted. simpl. by destruct (is_accepted r). Qed.

Lemma is_accepted_true (r : result bool) : is_accepted r = true ↔ r = Ok true.
Proof. destruct r as [[]|]; simpl; split; congruence. Qed.

(** One call, by whether it was accepted. *)
Lemma update_step (self : processor) (sample : gmap string json) :
  (is_accepted (update self sample).2 = true ∧
   latest_sample (update self sample).1 = Some sample ∧
   last_counter_ts (update self sample).1 =
     match latest_sample self with
     | Some _ => last_seen_ts self
     | None => last_counter_ts self
     end) ∨
  (is_accepted (update self sample).2 = false ∧
   (update self sample).1 = self).
Proof.
  destruct (update self sample) as [self' r] eqn:Hu.
  destruct (is_accepted r) eqn:Hr.
  - left. apply is_accepted_true in Hr as ->.
    apply update_accepted in Hu as (ts & self1 & _ & _ & _ & Hprev & ->).
    simpl. repeat split.
    destruct (latest_sample self) as [prev|] eqn:Hl.
    + by destruct (store_previous_some _ _ _ Hl Hprev) as (_ & _ & _ & -> & _).
    + by apply (store_previous_none _ _ Hl) in Hprev as ->.
  - right. split; [done|].
    replace self' with (update self sample).1 by by rewrite Hu.
    apply update_not_accepted. rewrite Hu. simpl.
    intros ->. discriminate.
Qed.

(** No snapshot is kept exactly when none was kept before the run and no
    call of the run was accepted. *)
Lemma run_latest_none (self : processor) (samples : list (gmap string json)) :
  latest_sample (run self samples).1 = None ↔
  latest_sample self = None ∧ accepted (run self samples).2 = 0.
Proof.
  revert self. induction samples as [|sample rest IH]; intros self.
  - simpl. by split; [|intros []].
  - rewrite run_cons. simpl. rewrite IH, accepted_cons.
    destruct (update_step self sample) as [(-> & Hl & _)|(-> & ->)].
    + rewrite Hl. split; [by intros []|]. intros [_ ?]. lia.
    + done.
Qed.


(* ===================================================================== *)
(** * The rate computation *)
(* ===================================================================== *)






Lemma bind_ok {A B : Type} (m : result A) (f : A → result B) (b : B) :
  m ≫= f = Ok b ↔ ∃ a, m = Ok a ∧ f a = Ok b.
Proof.
  destruct m as [a|e]; simpl.
  - split; [by exists a | by intros (? & [= <-] & ?)].
  - split; [done | by intros (? & ? & _)].
Qed.

Lemma bind_Ok {A B : Type} (a : A) (f : A → result B) : Ok a ≫= f = f a.
Proof. done. Qed.

Lemma setitem2_ok (output out : gmap string json) (g f : string) (v : json) :
  setitem2 output g f v = Ok out ↔
  ∃ d, output !! g = Some (JObj d) ∧ out = <[g := JObj (<[f := v]> d)]> output.
Proof.
  unfold setitem2. destruct (output !! g) as [[]|]; split;
    try done; try (by intros (? & ? & _)).
  - intros [= <-]. by eexists.
  - by intros (? & [= <-] & ->).
Qed.



Lemma ensure_group_other (output : gmap string json) (g g' : string) :
  g' ≠ g → ensure_group output g !! g' = output !! g'.
Proof.
  intros Hne. unfold ensure_group.
  destruct (output !! g); [done|]. by rewrite lookup_insert_ne.
Qed.







(** Whenever an arm returns, both rate fields of the group are there. *)
Lemma zero_group_written (output out : gmap string json) (g f1 f2 : string) :
  zero_group output g f1 f2 = Ok out →
  (∃ d, out !! g = Some (JObj d) ∧
        is_Some (d !! (f1 +:+ "_rate")) ∧ is_Some (d !! (f2 +:+ "_rate"))) ∧
  ∀ g', g' ≠ g → out !! g' = output !! g'.
Proof.
  unfold zero_group. intros H.
  apply bind_ok in H as (out1 & H1 & H2).
  apply setitem2_ok in H1 as (d1 & Hd1 & ->).
  apply setitem2_ok in H2 as (d2 & Hd2 & ->).
  rewrite lookup_insert_eq in Hd2. injection Hd2 as <-.
  split.
  - eexists. split; [apply lookup_insert_eq|].
    split; [|rewrite lookup_insert_eq; by eexists].
    destruct (decide (f2 +:+ "_rate" = f1 +:+ "_rate")) as [->|].
    + rewrite lookup_insert_eq. by eexists.
    + rewrite lookup_insert_ne, lookup_insert_eq by done. by eexists.
  - intros g' Hne. rewrite !lookup_insert_ne by done.
    by apply ensure_group_other.
Qed.

Lemma derive_group_written (self : processor) (time_delta : json)
    (output out : gmap string json) (g f1 f2 : string) :
  derive_group self time_delta output g f1 f2 = Ok out →
  (∃ d, out !! g = Some (JObj d) ∧
        is_Some (d !! (f1 +:+ "_rate")) ∧ is_Some (d !! (f2 +:+ "_rate"))) ∧
  ∀ g', g' ≠ g → out !! g' = output !! g'.
Proof.
  unfold derive_group. intros H.
  apply bind_ok in H as (c1 & _ & H).
  apply bind_ok in H as (c2 & _ & H).
  apply bind_ok in H as (d1 & _ & H).
  apply bind_ok in H as (r1 & _ & H).
  apply bind_ok in H as (out1 & H1 & H).
  apply bind_ok in H as (d2 & _ & H).
  apply bind_ok in H as (r2 & _ & H2).
  apply setitem2_ok in H1 as (e1 & He1 & ->).
  apply setitem2_ok in H2 as (e2 & He2 & ->).
  rewrite lookup_insert_eq in He2. injection He2 as <-.
  split.
  - eexists. split; [apply lookup_insert_eq|].
    split; [|rewrite lookup_insert_eq; by eexists].
    destruct (decide (f2 +:+ "_rate" = f1 +:+ "_rate")) as [->|].
    + rewrite lookup_insert_eq. by eexists.
    + rewrite lookup_insert_ne, lookup_insert_eq by done. by eexists.
  - intros g' Hne. rewrite !lookup_insert_ne by done.
    by apply ensure_group_other.
Qed.

(** The output of [get_latest_with_derived] when both rate arms go
    through: the two groups are handled one after the other. *)
Lemma two_groups_written (output out1 out : gmap string json) :
  ((∃ d, out1 !! "disk" = Some (JObj d) ∧
         is_Some (d !! "read_sectors_rate") ∧
         is_Some (d !! "write_sectors_rate")) ∧
   ∀ g', g' ≠ "disk" → out1 !! g' = output !! g') →
  ((∃ d, out !! "network" = Some (JObj d) ∧
         is_Some (d !! "rx_bytes_rate") ∧
         is_Some (d !! "tx_bytes_rate")) ∧
   ∀ g', g' ≠ "network" → out !! g' = out1 !! g') →
  is_Some (field_of out "disk" "read_sectors_rate") ∧
  is_Some (field_of out "disk" "write_sectors_rate") ∧
  is_Some (field_of out "network" "rx_bytes_rate") ∧
  is_Some (field_of out "network" "tx_bytes_rate").
Proof.
  intros [(d & Hd & Hr & Hw) _] [(n & Hn & Hrx & Htx) Hother].
  unfold field_of. rewrite Hn, (Hother "disk"), Hd by done. done.
Qed.

(** C10: a result of [get_latest_with_derived] that is not [None] has a
    [disk] group with both sector rates and a [network] group with both
    byte rates, whether or not the snapshot kept has these groups. *)
Theorem derived_fields_present (self : processor)
    (out : gmap string json) :
  get_latest_with_derived self = Ok (Some out) →
  is_Some (field_of out "disk" "read_sectors_rate") ∧
  is_Some (field_of out "disk" "write_sectors_rate") ∧
  is_Some (field_of out "network" "rx_bytes_rate") ∧
  is_Some (field_of out "network" "tx_bytes_rate").
Proof.
  unfold get_latest_with_derived.
  destruct (latest_sample self) as [latest|]; [|done].
  intros H. apply bind_ok in H as (branch & _ & H).
  apply bind_ok in H as (out' & H & [= ->]).
  destruct branch as [time_delta| |].
  - apply bind_ok in H as (out1 & H1 & H2).
    apply derive_group_written in H1, H2.
    by apply (two_groups_written (deepcopy_dict latest) out1).
  - unfold zero_rates in H. apply bind_ok in H as (out1 & H1 & H2).
    apply zero_group_written in H1, H2.
    by apply (two_groups_written (deepcopy_dict latest) out1).
  - unfold zero_rates in H. apply bind_ok in H as (out1 & H1 & H2).
    apply zero_group_written in H1, H2.
    by apply (two_groups_written (deepcopy_dict latest) out1).
Qed.

Lemma derived_fields_present_witness :
  ∃ out,
    get_latest_with_derived (update (init 30) bare_sample).1 = Ok (Some out) ∧
    latest_sample (update (init 30) bare_sample).1 = Some bare_sample ∧
    bare_sample !! "disk" = None ∧
    is_Some (field_of out "disk" "read_sectors_rate") ∧
    is_Some (field_of out "disk" "write_sectors_rate") ∧
    is_Some (field_of out "network" "rx_bytes_rate") ∧
    is_Some (field_of out "network" "tx_bytes_rate").
Proof.
  eexists. split; [vm_compute; reflexivity|].
  split; [vm_compute; reflexivity|]. split; [done|].
  apply (derived_fields_present (update (init 30) bare_sample).1).
  vm_compute. reflexivity.
Defined.



(** The scenario of two accepted snapshots ten seconds apart: the rates are
    10, 5, 50 and 30 per second. *)
Example derived_rates_scenario :
  ∃ out,
    get_latest_with_derived after_two = Ok (Some out) ∧
    rate_is out "disk" "read_sectors_rate" 10 ∧
    rate_is out "disk" "write_sectors_rate" 5 ∧
    rate_is out "network" "rx_bytes_rate" 50 ∧
    rate_is out "network" "tx_bytes_rate" 30.
Proof.
  eexists. split; [vm_compute; reflexivity|].
  repeat split; eexists; (split; [vm_compute; reflexivity|reflexivity]).
Qed.

(* ===================================================================== *)
(** * Health *)
(* ===================================================================== *)

Lemma health_fields (status : string) (ts : json) :
  health status ts !! "status" = Some (JStr status) ∧
  health status ts !! "last_seen_ts" = Some ts.
Proof. by vm_compute. Qed.



(** The scenario with [max_age_seconds = 30] and the last sample accepted
    at 1000: "ok" at 1025, "stale" at 1040. *)
Example health_scenario :
  get_health_status (update (init 30) (<["ts" := JInt 1000]> ∅)).1 1025 =
    Ok (health "ok" (JInt 1000)) ∧
  get_health_status (update (init 30) (<["ts" := JInt 1000]> ∅)).1 1040 =
    Ok (health "stale" (JInt 1000)).
Proof. by vm_compute. Qed.

(* ===================================================================== *)
(** * GET /metrics *)
(* ===================================================================== *)

Lemma get_latest_none (self : processor) :
  get_latest_with_derived self = Ok None ↔ latest_sample self = None.
Proof.
  unfold get_latest_with_derived.
  destruct (latest_sample self) as [latest|]; [|done].
  split; [|done]. intros H.
  apply bind_ok in H as (branch & _ & H).
  by apply bind_ok in H as (out & _ & H).
Qed.

(** C5: [get_latest_with_derived] returns [None] exactly when no call of
    the run was accepted; [GET /metrics] answers 503 exactly when it
    returns [None], and 200 with its result as the body when it returns
    one. *)
Theorem metrics_endpoint (self : processor) (current_time : Q) :
  (∀ max_age samples,
     get_latest_with_derived (run (init max_age) samples).1 = Ok None ↔
     accepted (run (init max_age) samples).2 = 0%nat) ∧
  (do_GET self current_time "/metrics" =
     Ok (ErrorResponse 503 (Message "No metrics available")) ↔
   get_latest_with_derived self = Ok None) ∧
  (∀ out,
     get_latest_with_derived self = Ok (Some out) →
     do_GET self current_time "/metrics" = Ok (JsonResponse 200 (JObj out))).
Proof.
  split; [|split].
  - intros max_age samples.
    rewrite get_latest_none, run_latest_none. simpl.
    split; [by intros [_ ?] | by split].
  - change (do_GET self current_time "/metrics") with (_serve_metrics self).
    unfold _serve_metrics.
    destruct (get_latest_with_derived self) as [[out|]|e]; simpl;
      split; congruence.
  - intros out H.
    change (do_GET self current_time "/metrics") with (_serve_metrics self).
    unfold _serve_metrics. by rewrite H.
Qed.

(* ===================================================================== *)
(** * The poller *)
(* ===================================================================== *)

Lemma rankable_key (x : json) :
  rankable x → py_num (ts_key x) = Some (ts_rank x).
Proof. intros [_ [q Hq]]. unfold ts_rank. by rewrite Hq. Qed.

(** The running maximum of [max]: the result is the first item of the
    greatest rank. *)
Lemma max_from_rankable (best : json) (rest : list json) :
  rankable best → Forall rankable rest →
  ∃ newest before after,
    max_from ts_key best (ts_key best) rest = Ok newest ∧
    best :: rest = (before ++ newest :: after)%list ∧
    (ts_rank best <= ts_rank newest)%Q ∧
    Forall (λ x, (ts_rank x < ts_rank newest)%Q) before ∧
    Forall (λ x, (ts_rank x <= ts_rank newest)%Q) after.
Proof.
  intros Hb Hrest. revert best Hb.
  induction Hrest as [|item rest Hitem Hrest IH]; intros best Hb.
  - exists best, [], []. repeat split; try done. apply Qle_refl.
  - simpl.
    rewrite (py_cmp_num OpGt _ _ _ _ (rankable_key _ Hitem) (rankable_key _ Hb)).
    rewrite bind_Ok.
    destruct (num_cmp OpGt (ts_rank item) (ts_rank best)) eqn:E.
    + apply num_cmp_gt in E.
      destruct (IH item Hitem)
        as (newest & before & after & -> & Heq & Hle & Hbefore & Hafter).
      exists newest, (best :: before), after.
      repeat split; try done.
      * simpl. by rewrite Heq.
      * apply Qlt_le_weak. by eapply Qlt_le_trans.
      * constructor; [by eapply Qlt_le_trans|done].
    + assert (ts_rank item <= ts_rank best)%Q as Hib.
      { apply Qnot_lt_le. intros Hlt. apply num_cmp_gt in Hlt. congruence. }
      destruct (IH best Hb)
        as (newest & before & after & -> & Heq & Hle & Hbefore & Hafter).
      destruct before as [|b before]; simpl in Heq.
      * injection Heq as <- <-.
        exists best, [], (item :: rest).
        repeat split; try done. by constructor.
      * injection Heq as <- Heq.
        exists newest, (best :: item :: before), after.
        inversion Hbefore as [|? ? Hbn Hbefore']; subst.
        repeat split; try done.
        repeat constructor; try done. by eapply Qle_lt_trans.
Qed.

(** C6, as the code has it: from a non-empty array of objects whose
    timestamps, where present, are numbers, the poller forwards to
    [update] the first element whose timestamp, counted as 0 for an element
    that has none, is greatest; an empty array makes the poller skip the
    cycle without a call to [update]. *)
Theorem poll_forwards_newest (processor0 : processor) (items : list json) :
  items ≠ [] → Forall rankable items →
  (∃ newest before after,
      items = (before ++ JObj newest :: after)%list ∧
      poll_forwarded (poll_once processor0 (JArr items)) = Some newest ∧
      poll_processor (poll_once processor0 (JArr items)) =
        (update processor0 newest).1 ∧
      Forall (λ x, (ts_rank x < ts_rank (JObj newest))%Q) before ∧
      Forall (λ x, (ts_rank x <= ts_rank (JObj newest))%Q) after) ∧
  poll_once processor0 (JArr []) =
    PollOutcome processor0 None LogEmptyArray.
Proof.
  intros Hne Hall. split; [|done].
  destruct items as [|first rest]; [done|].
  inversion Hall as [|? ? Hfirst Hrest]; subst.
  destruct (max_from_rankable first rest Hfirst Hrest)
    as (newest & before & after & Hmax & Heq & _ & Hbefore & Hafter).
  assert (rankable newest) as [[d ->] _].
  { rewrite Heq in Hall. apply Forall_app in Hall as [_ Hall].
    by inversion Hall. }
  exists d, before, after. split; [done|].
  unfold poll_once, py_max. rewrite Hmax. unfold forward_sample.
  by destruct (update processor0 d) as [p [[]|]].
Qed.

Lemma poll_forwards_newest_witness :
  (∃ newest before after,
      batch_5_9_7 = (before ++ JObj newest :: after)%list ∧
      poll_forwarded (poll_once (init 30) (JArr batch_5_9_7)) = Some newest ∧
      poll_processor (poll_once (init 30) (JArr batch_5_9_7)) =
        (update (init 30) newest).1 ∧
      Forall (λ x, (ts_rank x < ts_rank (JObj newest))%Q) before ∧
      Forall (λ x, (ts_rank x <= ts_rank (JObj newest))%Q) after) ∧
  poll_once (init 30) (JArr []) =
    PollOutcome (init 30) None LogEmptyArray.
Proof.
  apply (poll_forwards_newest (init 30)); [done|].
  repeat constructor; try (by eexists); by vm_compute.
Defined.

(** The scenario of the array with timestamps 5, 9 and 7: the sample with
    timestamp 9 is forwarded. *)
Example poll_scenario :
  poll_forwarded (poll_once (init 30) (JArr batch_5_9_7)) =
    Some (<["ts" := JInt 9]> ∅).
Proof. by vm_compute. Qed.

(** C6 as stated fails: the poller ranks an element without a timestamp as
    0, so from an array whose only timestamp is negative it forwards the
    element that has none; and when a timestamp is [null] the comparison
    raises and nothing is forwarded. *)
Lemma poll_forwards_untimestamped :
  poll_forwarded
    (poll_once (init 30)
       (JArr [JObj (<["ts" := JInt (-5)]> ∅); JObj ∅])) = Some ∅ ∧
  (∅ : gmap string json) !! "ts" = None ∧
  poll_once (init 30)
    (JArr [JObj (<["ts" := JInt 5]> ∅); JObj (<["ts" := JNull]> ∅)]) =
    PollOutcome (init 30) None (LogProcessingError TypeError).
Proof. by vm_compute. Qed.

(* ===================================================================== *)
(** * The file-backed relay *)
(* ===================================================================== *)

Section RelayFacts.
Variable loads : string → option json.
Variable strip : string → string.
Variable dict_of_pairs : json → result (gmap string json).


Lemma last_parsed_none (lines : list string) :
  last_parsed loads strip lines = None ↔
  Forall (λ l, strip l = "" ∨ loads (strip l) = None) lines.
Proof.
  induction lines as [|line rest IH]; simpl; [done|].
  rewrite Forall_cons, <- IH.
  destruct (last_parsed loads strip rest) as [w|].
  - split; [done|]. by intros [_ ?].
  - destruct (String.eqb (strip line) "") eqn:E.
    + apply String.eqb_eq in E. split; [|done]. intros _. split; [by left|done].
    + apply String.eqb_neq in E. split; [by split; [right|]|].
      by intros [[?|?] _].
Qed.

Lemma last_parsed_app (before after : list string) :
  last_parsed loads strip (before ++ after) =
    match last_parsed loads strip after with
    | Some v => Some v
    | None => last_parsed loads strip before
    end.
Proof.
  induction before as [|line before IH]; simpl.
  - by destruct (last_parsed loads strip after).
  - rewrite IH. by destruct (last_parsed loads strip after).
Qed.

(** [last_parsed] is the value of the last line that is not blank and that
    [loads] accepts: no line after it is one. *)
Lemma last_parsed_some (lines : list string) (v : json) :
  last_parsed loads strip lines = Some v ↔
  ∃ before line after,
    lines = (before ++ line :: after)%list ∧
    strip line ≠ "" ∧ loads (strip line) = Some v ∧
    Forall (λ l, strip l = "" ∨ loads (strip l) = None) after.
Proof.
  split.
  - induction lines as [|line rest IH]; simpl; [done|].
    destruct (last_parsed loads strip rest) as [w|] eqn:Hrest.
    + intros [= ->]. destruct (IH eq_refl)
        as (before & l & after & -> & ? & ? & ?).
      by exists (line :: before), l, after.
    + destruct (String.eqb (strip line) "") eqn:E; [done|].
      apply String.eqb_neq in E. intros Hv.
      exists [], line, rest. repeat split; try done.
      by apply last_parsed_none.
  - intros (before & line & after & -> & Hnb & Hv & Hafter).
    rewrite last_parsed_app. simpl.
    apply last_parsed_none in Hafter as ->.
    apply String.eqb_neq in Hnb as ->. by rewrite Hv.
Qed.

End RelayFacts.


(* ===================================================================== *)
(** * The store: independence of the copies *)
(* ===================================================================== *)

Module StoreFacts.
Import Store.

(** ** Computations *)

Lemma bind_some {A B : Type} (m : M A) (f : A → M B) (h h' : heap)
    (r : result B) :
  bind m f h = Some (h', r) ↔
  (∃ h1 a, m h = Some (h1, Ok a) ∧ f a h1 = Some (h', r)) ∨
  (∃ e, m h = Some (h', Raise e) ∧ r = Raise e).
Proof.
  unfold bind. destruct (m h) as [[h1 [a|e]]|].
  - split; [left; by exists h1, a|].
    intros [(? & ? & [= <- <-] & ?)|(? & ? & _)]; done.
  - split; [intros [= <- <-]; right; by exists e|].
    intros [(? & ? & ? & _)|(? & [= <- <-] & ->)]; done.
  - split; [done|]. intros [(? & ? & ? & _)|(? & ? & _)]; done.
Qed.

Lemma fresh_scalar (n : nat) (j : json) : fresh n (of_scalar j).
Proof. by destruct j. Qed.




(** ** Rules for [frame] *)






Lemma frame_conseq {A : Type} (n : nat) (Q Q' : A → Prop) (m : M A) :
  (∀ a, Q a → Q' a) → frame n Q m → frame n Q' m.
Proof.
  intros HQ Hm h h' r Hinv H.
  destruct (Hm h h' r Hinv H) as (? & ? & ? & Ha).
  do 3 (split; [done|]). auto.
Qed.






(** ** [deepcopy] allocates what it returns *)





(** ** The methods of the processor *)





Lemma val_sub_fresh (n : nat) (a b v : pyval) :
  val_sub a b = Ok v → fresh n v.
Proof.
  unfold val_sub. destruct (scalar a), (scalar b); try done.
  destruct (py_sub _ _); [|done]. intros [= <-]. apply fresh_scalar.
Qed.








(** ** Rules for [local] *)

Lemma agree_refl (n : nat) (h : heap) : agree n h h.
Proof. by split. Qed.

Lemma mapM_agree {A B : Type} (g g' : A → option B) (xs : list A) :
  Forall (λ x, g x = g' x) xs → mapM g xs = mapM g' xs.
Proof.
  induction 1 as [|x xs Hx _ IH]; simpl; [done|]. by rewrite Hx, IH.
Qed.

(** The tree of a value at or above [n] is read from objects at or above
    [n] only. *)
Lemma reify_agree (n fuel : nat) (ha hb : heap) (v : pyval) :
  inv n ha → agree n ha hb → fresh n v → reify fuel ha v = reify fuel hb v.
Proof.
  intros [_ Hc] [_ Hag]. revert v.
  induction fuel as [|fuel IH]; intros v Hv; destruct v; simpl; try done.
  simpl in Hv. rewrite <- (Hag l Hv).
  destruct (ha !! l) as [[d|xs]|] eqn:Hl; [| |done].
  - rewrite (mapM_agree (reify fuel ha) (reify fuel hb)); [done|].
    eapply Forall_impl; [exact (Hc l _ Hv Hl)|]. intros x Hx. by apply IH.
  - rewrite (mapM_agree (reify fuel ha) (reify fuel hb)); [done|].
    eapply Forall_impl; [exact (Hc l _ Hv Hl)|]. intros x Hx. by apply IH.
Qed.










Lemma local_val_cmp (n fuel : nat) (op : cmp_op) (a b : pyval) :
  fresh n a → fresh n b → local n (val_cmp fuel op a b).
Proof.
  intros Ha Hb ha hb Hinv Hag. unfold val_cmp.
  rewrite <- !(reify_agree n fuel ha hb) by done.
  by destruct (reify fuel ha a), (reify fuel ha b).
Qed.

(** ** The copy of an object at or above [n] *)




(** ** [get_latest_with_derived] reads the processor's copy only *)








(** ** The copy has the items of the original *)

Lemma copy_rel_ext (memo memo' : list (loc * loc)) (v v' : pyval) :
  memo_ext memo memo' → copy_rel memo v v' → copy_rel memo' v v'.
Proof.
  intros Hext. destruct v; simpl; try done.
  intros (l' & Hl & ->). exists l'. split; [by apply Hext|done].
Qed.

Lemma obj_rel_ext (memo memo' : list (loc * loc)) (o o' : pyobj) :
  memo_ext memo memo' → obj_rel memo o o' → obj_rel memo' o o'.
Proof.
  intros Hext. destruct o, o'; simpl; try done.
  - intros [Hk Hv]. split; [done|].
    eapply Forall2_impl; [exact Hv|]. intros ? ?. by apply copy_rel_ext.
  - intros Hv. eapply Forall2_impl; [exact Hv|].
    intros ? ?. by apply copy_rel_ext.
Qed.

Lemma memo_ext_refl (memo : list (loc * loc)) : memo_ext memo memo.
Proof. by intros l l'. Qed.

Lemma memo_ext_trans (m1 m2 m3 : list (loc * loc)) :
  memo_ext m1 m2 → memo_ext m2 m3 → memo_ext m1 m3.
Proof. intros H12 H23 l l' H. by apply H23, H12. Qed.

Lemma copy_all_copies (n : nat) (pending : list loc)
    (copy : list (loc * loc) → pyval → M (list (loc * loc) * pyval))
    (vs : list pyval) :
  (∀ memo v, below n v → copies n pending (copy memo v) memo v) →
  Forall (below n) vs →
  ∀ memo h h' r,
    copy_pre n pending memo h → copy_all copy memo vs h = Some (h', r) →
    ∃ memo' vs', r = Ok (memo', vs') ∧ copy_pre n pending memo' h' ∧
      memo_ext memo memo' ∧ Forall2 (copy_rel memo') vs vs' ∧
      (∀ l, l < n → h' !! l = h !! l) ∧ length h ≤ length h'.
Proof.
  intros Hcopy Hvs.
  induction Hvs as [|v vs Hv _ IH]; intros memo h h' r Hpre; simpl.
  - unfold ret. intros [= <- <-]. exists memo, [].
    do 2 (split; [done|]). split; [apply memo_ext_refl|].
    split; [constructor|]. by split.
  - intros H. apply bind_some in H as [(h1 & r1 & H1 & H)|(e & H1 & _)].
    2: { by destruct (Hcopy memo v Hv h h' (Raise e) Hpre H1)
           as (? & ? & ? & _). }
    destruct (Hcopy memo v Hv h h1 (Ok r1) Hpre H1)
      as (memo1 & v' & [= ->] & Hpre1 & Hext1 & Hrel1 & Hlow1 & Hlen1).
    apply bind_some in H as [(h2 & r2 & H2 & H)|(e & H2 & _)].
    2: { by destruct (IH memo1 h1 h' (Raise e) Hpre1 H2) as (? & ? & ? & _). }
    destruct (IH memo1 h1 h2 (Ok r2) Hpre1 H2)
      as (memo2 & vs' & [= ->] & Hpre2 & Hext2 & Hrel2 & Hlow2 & Hlen2).
    unfold ret in H. injection H as <- <-. simpl.
    exists memo2, (v' :: vs'). split; [done|]. split; [done|].
    split; [by eapply memo_ext_trans|].
    split; [constructor; [by eapply copy_rel_ext|done]|].
    split; [|lia]. intros l Hl. by rewrite Hlow2, Hlow1.
Qed.

(** Entering a new, empty copy in the memo. *)
Lemma copy_pre_enter (n : nat) (pending : list loc)
    (memo : list (loc * loc)) (h : heap) (l : loc) (o : pyobj) :
  copy_pre n pending memo h → l < n → memo_get memo l = None →
  obj_vals o = [] →
  copy_pre n (length h :: pending) ((l, length h) :: memo) (h ++ [o]) ∧
  memo_ext memo ((l, length h) :: memo).
Proof.
  intros (Hwf & Hn & Hok & Hinj & Hpend & Hup) Hl Hnone Ho.
  assert (memo_ext memo ((l, length h) :: memo)) as Hext.
  { intros a a' Ha. simpl. destruct (Nat.eqb a l) eqn:E; [|done].
    apply Nat.eqb_eq in E as ->. congruence. }
  split; [|done]. split; [|split; [|split; [|split; [|split]]]].
  - intros a oa Ha Hlook. rewrite lookup_app_l in Hlook by lia.
    by eapply Hwf.
  - rewrite length_app. lia.
  - intros a a'. simpl. destruct (Nat.eqb a l) eqn:E.
    + apply Nat.eqb_eq in E as ->. intros [= <-].
      rewrite length_app. simpl. repeat split; try lia. left. by left.
    + intros Ha. destruct (Hok a a' Ha) as (Han & Hna' & Ha' & Hcase).
      rewrite length_app. repeat split; try lia.
      destruct Hcase as [Hp|(oa & oa' & H1 & H2 & Hrel)]; [left; by right|].
      right. exists oa, oa'. rewrite !lookup_app_l by lia.
      repeat split; try done. by eapply obj_rel_ext.
  - intros a b c. simpl.
    destruct (Nat.eqb a l) eqn:Ea, (Nat.eqb b l) eqn:Eb.
    + apply Nat.eqb_eq in Ea, Eb. congruence.
    + intros [= <-] Hb. destruct (Hok b _ Hb) as (_ & _ & ? & _). lia.
    + intros Ha [= <-]. destruct (Hok a _ Ha) as (_ & _ & ? & _). lia.
    + apply Hinj.
  - rewrite length_app. simpl. constructor; [lia|].
    eapply Forall_impl; [exact Hpend|]. intros; simpl in *; lia.
  - intros a oa Ha Hlook. rewrite length_app. simpl.
    apply lookup_app_Some in Hlook as [Hlook|[_ Hlook]].
    + eapply Forall_impl; [by eapply Hup|].
      intros []; simpl; try done. lia.
    + apply list_lookup_singleton_Some in Hlook as [_ <-].
      rewrite Ho. constructor.
Qed.

Lemma obj_rel_valid (n : nat) (pending : list loc)
    (memo : list (loc * loc)) (h : heap) (o o' : pyobj) :
  memo_ok n pending memo h → obj_rel memo o o' →
  Forall (below (length h)) (obj_vals o').
Proof.
  intros Hok Hrel.
  assert (∀ xs ys, Forall2 (copy_rel memo) xs ys →
                   Forall (below (length h)) ys) as Hall.
  { intros xs ys Hxy. induction Hxy as [|x y xs ys Hx _ IH]; constructor;
      [|done].
    destruct x; simpl in Hx; subst; try done.
    destruct Hx as (l' & Hl' & ->). simpl.
    by destruct (Hok _ _ Hl') as (_ & _ & ? & _). }
  destruct o, o'; simpl in *; try done.
  - destruct Hrel as [_ Hrel]. by eapply Hall.
  - by eapply Hall.
Qed.

(** Filling the copy once its items are copied. *)
Lemma copy_pre_fill (n : nat) (pending : list loc)
    (memo : list (loc * loc)) (h : heap) (l l' : loc) (o o' : pyobj) :
  copy_pre n (l' :: pending) memo h →
  memo_get memo l = Some l' → h !! l = Some o → obj_rel memo o o' →
  copy_pre n pending memo (<[l' := o']> h).
Proof.
  intros (Hwf & Hn & Hok & Hinj & Hpend & Hup) Hl Ho Hrel.
  destruct (Hok l l' Hl) as (Hln & Hnl' & Hl'h & _).
  split; [|split; [|split; [|split; [|split]]]].
  - intros a oa Ha Hlook. rewrite list_lookup_insert_ne in Hlook by lia.
    by eapply Hwf.
  - by rewrite length_insert.
  - intros a a' Ha. destruct (Hok a a' Ha) as (Han & Hna' & Ha' & Hcase).
    rewrite length_insert. repeat split; try done.
    destruct (decide (a' = l')) as [->|Hne].
    + assert (a = l) as -> by by eapply Hinj.
      right. exists o, o'.
      rewrite list_lookup_insert_ne by lia.
      by rewrite list_lookup_insert_eq by done.
    + destruct Hcase as [Hp|(oa & oa' & H1 & H2 & Hr)].
      * left. apply elem_of_cons in Hp as [?|?]; done.
      * right. exists oa, oa'. rewrite !list_lookup_insert_ne by lia. done.
  - done.
  - rewrite length_insert. by inversion Hpend.
  - intros a oa Ha Hlook. rewrite length_insert.
    destruct (decide (l' = a)) as [<-|Hne].
    + rewrite list_lookup_insert_eq in Hlook by done. injection Hlook as <-.
      eapply obj_rel_valid; [exact Hok|exact Hrel].
    + rewrite list_lookup_insert_ne in Hlook by done. by eapply Hup.
Qed.

Lemma copies_ret (n : nat) (pending : list loc) (memo : list (loc * loc))
    (v v' : pyval) :
  copy_rel memo v v' → copies n pending (ret (memo, v')) memo v.
Proof.
  intros Hrel h h' r Hpre. unfold ret. intros [= <- <-]. exists memo, v'.
  do 2 (split; [done|]). split; [apply memo_ext_refl|]. by split.
Qed.

Lemma deepcopy_copies (n fuel : nat) (pending : list loc)
    (memo : list (loc * loc)) (v : pyval) :
  below n v → copies n pending (deepcopy fuel memo v) memo v.
Proof.
  revert pending memo v.
  induction fuel as [|fuel IH]; intros pending memo v Hv.
  - destruct v; simpl; try (by apply copies_ret).
    destruct (memo_get memo l) as [l'|] eqn:Hl; [|done].
    apply copies_ret. simpl. by exists l'.
  - destruct v; simpl; try (by apply copies_ret).
    destruct (memo_get memo l) as [l'|] eqn:Hl.
    { apply copies_ret. simpl. by exists l'. }
    simpl in Hv. intros h h' r Hpre H.
    apply bind_some in H as [(h0 & o0 & Hload & H)|(e & Hload & _)].
    2: { unfold load in Hload. by destruct (h !! l). }
    unfold load in Hload. destruct (h !! l) as [o|] eqn:Ho; [|done].
    injection Hload as <- <-.
    assert (Forall (below n) (obj_vals o)) as Hvals.
    { destruct Hpre as (Hwf & _). by eapply Hwf. }
    assert (∀ o1 (body : list pyval → pyobj),
              obj_vals o1 = [] →
              (∀ memo2 vs', Forall2 (copy_rel memo2) (obj_vals o) vs' →
                            obj_rel memo2 o (body vs')) →
              (l' <- alloc o1;;
               r <- copy_all (deepcopy fuel) ((l, l') :: memo) (obj_vals o);;
               _ <- store l' (body r.2);;
               ret (r.1, VRef l')) h = Some (h', r) →
              ∃ memo' v', r = Ok (memo', v') ∧ copy_pre n pending memo' h' ∧
                memo_ext memo memo' ∧ copy_rel memo' (VRef l) v' ∧
                (∀ a, a < n → h' !! a = h !! a) ∧ length h ≤ length h')
      as Hgen.
    { clear H. intros o1 body Ho1 Hbody H.
      apply bind_some in H as [(h1 & l' & Halloc & H)|(e & Halloc & _)];
        [|done].
      unfold alloc in Halloc. injection Halloc as <- <-.
      destruct (copy_pre_enter n pending memo h l o1 Hpre Hv Hl Ho1)
        as [Hpre1 Hext1].
      apply bind_some in H as [(h2 & r2 & Hall & H)|(e & Hall & _)].
      2: { by destruct (copy_all_copies n (length h :: pending)
                          (deepcopy fuel) (obj_vals o)
                          (λ memo v Hb, IH _ memo v Hb) Hvals
                          _ _ _ _ Hpre1 Hall) as (? & ? & ? & _). }
      destruct (copy_all_copies n (length h :: pending)
                  (deepcopy fuel) (obj_vals o)
                  (λ memo v Hb, IH _ memo v Hb) Hvals
                  _ _ _ _ Hpre1 Hall)
        as (memo2 & vs' & [= ->] & Hpre2 & Hext2 & Hrel2 & Hlow2 & Hlen2).
      simpl in H.
      assert (memo_get memo2 l = Some (length h)) as Hl2.
      { apply Hext2. simpl. by rewrite Nat.eqb_refl. }
      assert (h2 !! l = Some o) as Ho2.
      { rewrite Hlow2 by done. rewrite lookup_app_l; [done|].
        destruct Hpre as (_ & ? & _). lia. }
      apply bind_some in H as [(h3 & [] & Hstore & H)|(e & Hstore & _)].
      2: { unfold store in Hstore. by destruct (h2 !! length h). }
      unfold store in Hstore.
      destruct (h2 !! length h) as [o2|] eqn:Ho2'; [|done].
      injection Hstore as <-. unfold ret in H. injection H as <- <-.
      exists memo2, (VRef (length h)). split; [done|].
      split; [by eapply copy_pre_fill; [| | |apply Hbody]|].
      split; [by eapply memo_ext_trans|].
      split; [by exists (length h)|].
      rewrite length_app in Hlen2. rewrite length_insert.
      split; [|lia]. intros a Ha.
      destruct Hpre as (_ & ? & _).
      rewrite list_lookup_insert_ne by lia.
      rewrite Hlow2 by done. apply lookup_app_l. lia. }
    destruct o as [d|xs].
    + apply (Hgen (ODict []) (λ vs', ODict (zip d.*1 vs'))); try done.
      intros memo2 vs' Hrel. simpl. simpl in Hrel.
      pose proof (Forall2_length _ _ _ Hrel) as Hlen.
      rewrite !length_fmap in Hlen.
      rewrite fst_zip, snd_zip by (rewrite length_fmap; lia). done.
    + apply (Hgen (OList []) (λ vs', OList vs')); done.
Qed.



Lemma copy_pre_start (h : heap) : wf h → copy_pre (length h) [] [] h.
Proof.
  intros Hwf. split; [by intros a o _; apply Hwf|]. split; [done|].
  split; [done|]. split; [done|]. split; [constructor|].
  intros a o _. apply Hwf.
Qed.


(** ** [update] up to the copy *)

Lemma wfb_wf (h : heap) : wfb h = true → wf h.
Proof.
  unfold wfb, wf. rewrite forallb_forall. intros H l o Hl.
  apply list_elem_of_lookup_2, list_elem_of_In, H in Hl.
  rewrite forallb_forall in Hl. apply Forall_forall. intros v Hv.
  apply list_elem_of_In, Hl in Hv. destruct v; try done.
  by apply Nat.ltb_lt in Hv.
Qed.

Lemma readonly_bind {A B : Type} (m : M A) (f : A → M B) :
  readonly m → (∀ a, readonly (f a)) → readonly (bind m f).
Proof.
  intros Hm Hf h h' r H.
  apply bind_some in H as [(h1 & a & H1 & H2)|(e & H1 & _)].
  - apply Hm in H1 as ->. by apply Hf in H2.
  - by apply Hm in H1.
Qed.

Lemma readonly_ret {A : Type} (a : A) : readonly (ret a).
Proof. intros h h' r. unfold ret. by intros [= <- _]. Qed.

Lemma readonly_raise {A : Type} (e : exn) : readonly (raise (A:=A) e).
Proof. intros h h' r. unfold raise. by intros [= <- _]. Qed.

Lemma readonly_load_dict (e : exn) (v : pyval) : readonly (load_dict e v).
Proof.
  destruct v; try apply readonly_raise. simpl.
  apply readonly_bind.
  - intros h h' r. unfold load. destruct (h !! l); [|done]. by intros [= <- _].
  - intros [d|xs]; [apply readonly_ret|apply readonly_raise].
Qed.

Lemma readonly_counter_field (l : loc) (g f : string) :
  readonly (counter_field l g f).
Proof.
  unfold counter_field. apply readonly_bind; [apply readonly_load_dict|].
  intros d. destruct (dict_get d g); [|apply readonly_ret].
  apply readonly_bind; [apply readonly_load_dict|]. intros ?.
  apply readonly_ret.
Qed.

Lemma readonly_store_previous (self : processor) :
  readonly (store_previous self).
Proof.
  unfold store_previous. destruct (latest_sample self); [|apply readonly_ret].
  do 4 (apply readonly_bind; [apply readonly_counter_field|]; intros ?).
  apply readonly_ret.
Qed.





(** ** Enough fuel gives the copy *)

Lemma filter_length_le {A : Type} (P Q : A → Prop)
    `{!∀ x, Decision (P x)} `{!∀ x, Decision (Q x)} (xs : list A) :
  (∀ x, P x → Q x) → length (filter P xs) ≤ length (filter Q xs).
Proof.
  intros HPQ. induction xs as [|x xs IH]; [done|].
  rewrite !filter_cons.
  destruct (decide (P x)) as [HP|HP], (decide (Q x)) as [HQ|HQ]; simpl;
    try lia. exfalso. by apply HQ, HPQ.
Qed.

Lemma filter_length_lt {A : Type} (P Q : A → Prop)
    `{!∀ x, Decision (P x)} `{!∀ x, Decision (Q x)} (xs : list A) (x0 : A) :
  (∀ x, P x → Q x) → x0 ∈ xs → Q x0 → ¬ P x0 →
  length (filter P xs) < length (filter Q xs).
Proof.
  intros HPQ Hin HQ0 HP0. induction xs as [|x xs IH]; [by inversion Hin|].
  rewrite !filter_cons.
  pose proof (filter_length_le P Q xs HPQ) as Hle.
  apply elem_of_cons in Hin as [<-|Hin].
  - rewrite decide_False, decide_True by done. simpl. lia.
  - specialize (IH Hin).
    destruct (decide (P x)) as [HP|HP], (decide (Q x)) as [HQ|HQ]; simpl;
      try lia; exfalso; by apply HQ, HPQ.
Qed.

Lemma unanswered_ext (n : nat) (memo memo' : list (loc * loc)) :
  memo_ext memo memo' → unanswered n memo' ≤ unanswered n memo.
Proof.
  intros Hext. apply filter_length_le. intros l Hnone.
  destruct (memo_get memo l) as [l'|] eqn:E; [|done].
  apply Hext in E. congruence.
Qed.

Lemma unanswered_enter (n : nat) (memo : list (loc * loc)) (l l' : loc) :
  l < n → memo_get memo l = None →
  unanswered n ((l, l') :: memo) < unanswered n memo.
Proof.
  intros Hl Hnone. apply (filter_length_lt _ _ _ l).
  - intros a. simpl. by destruct (Nat.eqb a l).
  - apply elem_of_seq. lia.
  - done.
  - simpl. by rewrite Nat.eqb_refl.
Qed.

Lemma copy_all_total (n fuel : nat) (pending : list loc)
    (copy : list (loc * loc) → pyval → M (list (loc * loc) * pyval))
    (vs : list pyval) :
  (∀ memo v, below n v → copies n pending (copy memo v) memo v) →
  (∀ memo v h, copy_pre n pending memo h → below n v →
               unanswered n memo < fuel → is_Some (copy memo v h)) →
  Forall (below n) vs →
  ∀ memo h, copy_pre n pending memo h → unanswered n memo < fuel →
            is_Some (copy_all copy memo vs h).
Proof.
  intros Hcopies Htotal Hvs.
  induction Hvs as [|v vs Hv Hvs IH]; intros memo h Hpre Hfuel; simpl.
  - by eexists.
  - destruct (Htotal memo v h Hpre Hv Hfuel) as [[h1 r1] H1].
    destruct (Hcopies memo v Hv h h1 r1 Hpre H1)
      as (memo1 & v' & -> & Hpre1 & Hext1 & _).
    assert (unanswered n memo1 < fuel) as Hfuel1.
    { pose proof (unanswered_ext n _ _ Hext1). lia. }
    destruct (IH memo1 h1 Hpre1 Hfuel1) as [[h2 r2] H2].
    destruct (copy_all_copies n pending copy vs Hcopies Hvs
                memo1 h1 h2 r2 Hpre1 H2) as (memo2 & vs' & -> & _).
    unfold bind. rewrite H1. simpl. rewrite H2. by eexists.
Qed.

(** With more fuel than there are objects left to copy, [deepcopy]
    returns. *)
Lemma deepcopy_total (n fuel : nat) (pending : list loc)
    (memo : list (loc * loc)) (v : pyval) (h : heap) :
  copy_pre n pending memo h → below n v → unanswered n memo < fuel →
  is_Some (deepcopy fuel memo v h).
Proof.
  revert pending memo v h.
  induction fuel as [|fuel IH]; intros pending memo v h Hpre Hv Hfuel; [lia|].
  destruct v; simpl; try (by eexists).
  destruct (memo_get memo l) as [l'|] eqn:Hl; [by eexists|].
  simpl in Hv.
  assert (n ≤ length h) as Hn by apply Hpre.
  destruct (lookup_lt_is_Some_2 h l) as [o Ho]; [lia|].
  assert (Forall (below n) (obj_vals o)) as Hvals.
  { destruct Hpre as (Hwf & _). by eapply Hwf. }
  assert (∀ o1 (body : list pyval → pyobj),
            obj_vals o1 = [] →
            is_Some ((l' <- alloc o1;;
                      r <- copy_all (deepcopy fuel) ((l, l') :: memo)
                             (obj_vals o);;
                      _ <- store l' (body r.2);;
                      ret (r.1, VRef l')) h)) as Hgen.
  { intros o1 body Ho1.
    destruct (copy_pre_enter n pending memo h l o1 Hpre Hv Hl Ho1)
      as [Hpre1 Hext1].
    pose proof (unanswered_enter n memo l (length h) Hv Hl) as Hlt.
    destruct (copy_all_total n fuel (length h :: pending) (deepcopy fuel)
                (obj_vals o)
                (λ memo v Hb, deepcopy_copies n fuel _ memo v Hb)
                (λ memo v h Hp Hb Hf, IH _ memo v h Hp Hb Hf) Hvals
                ((l, length h) :: memo) (h ++ [o1]) Hpre1 ltac:(lia))
      as [[h2 r2] Hall].
    destruct (copy_all_copies n (length h :: pending) (deepcopy fuel)
                (obj_vals o)
                (λ memo v Hb, deepcopy_copies n fuel _ memo v Hb) Hvals
                _ _ _ _ Hpre1 Hall)
      as (memo2 & vs' & -> & Hpre2 & _).
    assert (length h < length h2) as Hlen.
    { destruct Hpre2 as (_ & _ & _ & _ & Hp & _). by inversion Hp. }
    destruct (lookup_lt_is_Some_2 h2 (length h) Hlen) as [o2 Ho2].
    unfold bind at 1. unfold alloc. unfold bind at 1. rewrite Hall.
    unfold bind, store. simpl. rewrite Ho2. by eexists. }
  unfold bind at 1. unfold load. rewrite Ho.
  destruct o as [d|xs].
  - apply (Hgen (ODict []) (λ vs', ODict (zip d.*1 vs'))). done.
  - apply (Hgen (OList []) (λ vs', OList vs')). done.
Qed.

Lemma unanswered_le (n : nat) (memo : list (loc * loc)) :
  unanswered n memo ≤ n.
Proof.
  unfold unanswered.
  etrans; [apply length_filter|]. by rewrite length_seq.
Qed.

(** In a well-formed store [deepcopy_dict] returns a copy of any object,
    given more fuel than the store has objects. *)
Lemma deepcopy_dict_total (fuel : nat) (l : loc) (h : heap) :
  wf h → l < length h → length h < fuel →
  ∃ h' l', deepcopy_dict fuel l h = Some (h', Ok l').
Proof.
  intros Hwf Hl Hfuel.
  assert (copy_pre (length h) [] [] h) as Hpre by by apply copy_pre_start.
  destruct (deepcopy_total (length h) fuel [] [] (VRef l) h Hpre Hl)
    as [[h1 r1] Hcopy].
  { pose proof (unanswered_le (length h) []). lia. }
  destruct (deepcopy_copies (length h) fuel [] [] (VRef l) Hl h h1 r1
              Hpre Hcopy) as (memo' & v' & -> & _ & _ & Hrel & _).
  destruct Hrel as (l' & _ & ->).
  exists h1, l'. unfold deepcopy_dict, bind. by rewrite Hcopy.
Qed.


(** ** The methods return *)

Lemma extends_refl (h : heap) : extends h h.
Proof. intros l o Hl. exists o. split; [done|by destruct o]. Qed.

Lemma same_kind_trans (o1 o2 o3 : pyobj) :
  same_kind o1 o2 → same_kind o2 o3 → same_kind o1 o3.
Proof. by destruct o1, o2, o3. Qed.

Lemma extends_trans (h1 h2 h3 : heap) :
  extends h1 h2 → extends h2 h3 → extends h1 h3.
Proof.
  intros H12 H23 l o Hl.
  destruct (H12 l o Hl) as (o2 & Hl2 & Hk2).
  destruct (H23 l o2 Hl2) as (o3 & Hl3 & Hk3).
  exists o3. split; [done|by eapply same_kind_trans].
Qed.

Lemma extends_length (h h' : heap) : extends h h' → length h ≤ length h'.
Proof.
  intros Hext. destruct (decide (length h ≤ length h')) as [|Hgt]; [done|].
  destruct (lookup_lt_is_Some_2 h (length h')) as [o Ho]; [lia|].
  destruct (Hext _ _ Ho) as (o' & Ho' & _).
  apply lookup_lt_Some in Ho'. lia.
Qed.

Lemma extends_is_dict (h h' : heap) (l : loc) :
  extends h h' → is_dict h l → is_dict h' l.
Proof.
  intros Hext [d Hd]. destruct (Hext _ _ Hd) as ([d'|xs] & Ho' & Hk); [|done].
  by exists d'.
Qed.

Lemma extends_alloc (h : heap) (o : pyobj) : extends h (h ++ [o]).
Proof.
  intros l o0 Hl. exists o0. split; [|by destruct o0].
  rewrite lookup_app_l; [done|]. by eapply lookup_lt_Some.
Qed.

Lemma extends_store (h : heap) (l : loc) (o0 o : pyobj) :
  h !! l = Some o0 → same_kind o0 o → extends h (<[l := o]> h).
Proof.
  intros Hl Hk a oa Ha. destruct (decide (l = a)) as [<-|Hne].
  - exists o. rewrite list_lookup_insert_eq by by eapply lookup_lt_Some.
    split; [done|]. congruence.
  - exists oa. rewrite list_lookup_insert_ne by done.
    split; [done|by destruct oa].
Qed.

Lemma below_mono (n m : nat) (v : pyval) : n ≤ m → below n v → below m v.
Proof. destruct v; simpl; try done. lia. Qed.

Lemma wf_alloc (h : heap) (o : pyobj) :
  wf h → Forall (below (length h)) (obj_vals o) → wf (h ++ [o]).
Proof.
  intros Hwf Ho l o0 Hl. rewrite length_app. simpl.
  apply lookup_app_Some in Hl as [Hl|[_ Hl]].
  - eapply Forall_impl; [by eapply Hwf|]. intros v. apply below_mono. lia.
  - apply list_lookup_singleton_Some in Hl as [_ <-].
    eapply Forall_impl; [exact Ho|]. intros v. apply below_mono. lia.
Qed.

Lemma wf_store (h : heap) (l : loc) (o : pyobj) :
  wf h → Forall (below (length h)) (obj_vals o) → wf (<[l := o]> h).
Proof.
  intros Hwf Ho a oa Ha. rewrite length_insert.
  destruct (decide (l = a)) as [<-|Hne].
  - apply list_lookup_insert_Some in Ha as [(_ & <- & _)|[? _]]; done.
  - rewrite list_lookup_insert_ne in Ha by done. by eapply Hwf.
Qed.

Lemma below_dict_get (n : nat) (d : list (string * pyval)) (k : string)
    (v : pyval) :
  Forall (below n) d.*2 → dict_get d k = Some v → below n v.
Proof.
  induction d as [|[k' v'] d IH]; simpl; [done|].
  intros Hd. inversion Hd; subst.
  destruct (String.eqb k k'); [by intros [= <-]|by apply IH].
Qed.

Lemma below_dict_set (n : nat) (d : list (string * pyval)) (k : string)
    (v : pyval) :
  Forall (below n) d.*2 → below n v → Forall (below n) (dict_set d k v).*2.
Proof.
  intros Hd Hv. induction d as [|[k' v'] d IH]; simpl.
  - by constructor.
  - inversion Hd; subst.
    destruct (String.eqb k k'); simpl; constructor; auto.
Qed.

Lemma scalar_below (n : nat) (v : pyval) : is_Some (scalar v) → below n v.
Proof. destruct v; simpl; try done; by intros [? ?]. Qed.

Lemma scalar_of_scalar (j : json) : is_Some (scalar (of_scalar j)).
Proof. destruct j; simpl; by eexists. Qed.

Lemma reify_scalar (fuel : nat) (h : heap) (v : pyval) :
  is_Some (scalar v) → is_Some (reify fuel h v).
Proof. destruct v, fuel; simpl; try done; by intros [? ?]. Qed.

(** *** Rules for [total] *)

Lemma total_ret {A : Type} (P : heap → Prop) (Q : heap → A → Prop) (a : A) :
  (∀ h, P h → Q h a) → total P (ret a) Q.
Proof.
  intros HQ h Hwf HP. exists h, (Ok a). split; [done|]. split; [done|].
  split; [apply extends_refl|]. intros ? [= <-]. by apply HQ.
Qed.

Lemma total_raise {A : Type} (P : heap → Prop) (Q : heap → A → Prop)
    (e : exn) :
  total P (raise e) Q.
Proof.
  intros h Hwf HP. exists h, (Raise e). split; [done|]. split; [done|].
  split; [apply extends_refl|done].
Qed.

Lemma total_lift {A : Type} (P : heap → Prop) (r : result A) :
  total P (lift r) (λ h a, P h ∧ r = Ok a).
Proof.
  intros h Hwf HP. exists h, r. split; [done|]. split; [done|].
  split; [apply extends_refl|]. by intros a ->.
Qed.

Lemma total_bind {A B : Type} (P : heap → Prop) (Q : heap → A → Prop)
    (R : heap → B → Prop) (m : M A) (f : A → M B) :
  total P m Q → (∀ a, total (λ h, Q h a) (f a) R) → total P (bind m f) R.
Proof.
  intros Hm Hf h Hwf HP.
  destruct (Hm h Hwf HP) as (h1 & r1 & H1 & Hwf1 & Hext1 & HQ).
  unfold bind. rewrite H1. destruct r1 as [a|e].
  - destruct (Hf a h1 Hwf1 (HQ a eq_refl)) as (h2 & r2 & H2 & Hwf2 & Hext2 & HR).
    exists h2, r2. split; [done|]. split; [done|].
    split; [by eapply extends_trans|done].
  - exists h1, (Raise e). by do 3 (split; [done|]).
Qed.

Lemma total_conseq {A : Type} (P P' : heap → Prop) (Q Q' : heap → A → Prop)
    (m : M A) :
  (∀ h, P' h → P h) → (∀ h a, Q h a → Q' h a) →
  total P m Q → total P' m Q'.
Proof.
  intros HP HQ Hm h Hwf HP'.
  destruct (Hm h Hwf (HP h HP')) as (h' & r & H & Hwf' & Hext & Ha).
  exists h', r. do 3 (split; [done|]). intros a Hr. by apply HQ, Ha.
Qed.

(** *** The steps of the methods *)

Lemma total_load_dict (e : exn) (l : loc) :
  total (λ h, is_dict h l) (load_dict e (VRef l))
    (λ h d, h !! l = Some (ODict d)).
Proof.
  intros h Hwf [d Hd]. exists h, (Ok d). split.
  { simpl. unfold bind, load. by rewrite Hd. }
  split; [done|]. split; [apply extends_refl|]. by intros ? [= <-].
Qed.

Lemma load_dict_ref (e : exn) (l : loc) (d : list (string * pyval))
    (h : heap) :
  h !! l = Some (ODict d) → load_dict e (VRef l) h = Some (h, Ok d).
Proof. intros Hd. simpl. unfold bind, load. by rewrite Hd. Qed.

Lemma bind_ok_eq {A B : Type} (m : M A) (f : A → M B) (h h' : heap) (a : A) :
  m h = Some (h', Ok a) → bind m f h = f a h'.
Proof. intros Hm. unfold bind. by rewrite Hm. Qed.

Lemma bind_raise_eq {A B : Type} (m : M A) (f : A → M B) (h h' : heap)
    (e : exn) :
  m h = Some (h', Raise e) → bind m f h = Some (h', Raise e).
Proof. intros Hm. unfold bind. by rewrite Hm. Qed.

(** A value of a well-formed store that is no [dict]: [load_dict] raises. *)
Lemma load_dict_total (e : exn) (v : pyval) (h : heap) :
  below (length h) v →
  (∃ l d, v = VRef l ∧ h !! l = Some (ODict d) ∧
          load_dict e v h = Some (h, Ok d)) ∨
  load_dict e v h = Some (h, Raise e).
Proof.
  intros Hv. destruct v as [| | | | |l]; try by right.
  simpl in Hv. destruct (lookup_lt_is_Some_2 h l Hv) as [[d|xs] Ho].
  - left. exists l, d. by rewrite (load_dict_ref e l d h Ho).
  - right. simpl. unfold bind, load. by rewrite Ho.
Qed.

Lemma total_counter_field (l : loc) (g f : string) :
  total (λ h, is_dict h l) (counter_field l g f) (λ h _, is_dict h l).
Proof.
  intros h Hwf [d Hd].
  assert (∃ r, counter_field l g f h = Some (h, r)) as [r Hr].
  { unfold counter_field.
    rewrite (bind_ok_eq _ _ h h d (load_dict_ref _ l d h Hd)).
    destruct (dict_get d g) as [group|] eqn:Hg; [|by eexists].
    pose proof (below_dict_get _ _ _ _ (Hwf l _ Hd) Hg) as Hgroup.
    destruct (load_dict_total AttributeError group h Hgroup)
      as [(l' & fields & _ & _ & Hload)|Hload].
    - rewrite (bind_ok_eq _ _ h h fields Hload). by eexists.
    - rewrite (bind_raise_eq _ _ h h _ Hload). by eexists. }
  exists h, r. split; [done|]. split; [done|].
  split; [apply extends_refl|]. intros _ _. by exists d.
Qed.

Lemma total_ensure_group (output : loc) (g : string) :
  total (λ h, is_dict h output) (ensure_group output g)
    (λ h _, is_dict h output).
Proof.
  intros h Hwf [d Hd]. unfold ensure_group.
  rewrite (bind_ok_eq _ _ h h d (load_dict_ref _ output d h Hd)).
  destruct (dict_get d g) as [group|] eqn:Hg.
  { exists h, (Ok tt). split; [done|]. split; [done|].
    split; [apply extends_refl|]. intros _ _. by exists d. }
  assert (output < length h) as Hout by by eapply lookup_lt_Some.
  unfold bind, alloc, store.
  rewrite lookup_app_l by done. rewrite Hd.
  eexists _, _. split; [done|].
  split; [|split].
  - apply wf_store; [apply wf_alloc; [done|constructor]|].
    rewrite length_app. simpl. apply below_dict_set; [|simpl; lia].
    eapply Forall_impl; [exact (Hwf output _ Hd)|].
    intros v. apply below_mono. lia.
  - eapply extends_trans; [apply (extends_alloc h (ODict []))|].
    apply (extends_store _ _ (ODict d)); [|done].
    rewrite lookup_app_l by done. exact Hd.
  - intros _ _. eexists. apply list_lookup_insert_eq.
    rewrite length_app. lia.
Qed.

Lemma total_setitem2 (output : loc) (g f : string) (v : pyval) :
  is_Some (scalar v) →
  total (λ h, is_dict h output) (setitem2 output g f v)
    (λ h _, is_dict h output).
Proof.
  intros Hv h Hwf [d Hd]. unfold setitem2.
  rewrite (bind_ok_eq _ _ h h d (load_dict_ref _ output d h Hd)).
  assert (∀ e, ∃ h' r, raise (A:=unit) e h = Some (h', r) ∧ wf h' ∧
                       extends h h' ∧ ∀ a, r = Ok a → is_dict h' output)
    as Hraise.
  { intros e. exists h, (Raise e). split; [done|]. split; [done|].
    split; [apply extends_refl|done]. }
  destruct (dict_get d g) as [group|] eqn:Hg; [|apply Hraise].
  pose proof (below_dict_get _ _ _ _ (Hwf output _ Hd) Hg) as Hgroup.
  destruct group as [| | | | |l]; try apply Hraise. simpl in Hgroup.
  destruct (lookup_lt_is_Some_2 h l Hgroup) as [o Ho].
  unfold bind, load. rewrite Ho. destruct o as [fields|xs]; [|apply Hraise].
  unfold store. rewrite Ho. eexists _, _. split; [done|]. split; [|split].
  - apply wf_store; [done|]. simpl. apply below_dict_set.
    + by apply (Hwf l _ Ho).
    + by apply scalar_below.
  - by apply (extends_store _ _ (ODict fields)).
  - intros _ _.
    eapply extends_is_dict; [by apply (extends_store _ _ (ODict fields))|].
    by exists d.
Qed.

Lemma val_truediv_scalar (a b v : pyval) :
  val_truediv a b = Ok v → is_Some (scalar v).
Proof.
  unfold val_truediv. destruct (scalar a), (scalar b); try done.
  destruct (py_truediv _ _); [|done]. intros [= <-]. apply scalar_of_scalar.
Qed.

Lemma total_derive_group (self : processor) (time_delta : pyval)
    (output : loc) (g f1 f2 : string) :
  total (λ h, is_dict h output)
    (derive_group self time_delta output g f1 f2)
    (λ h _, is_dict h output).
Proof.
  unfold derive_group.
  eapply total_bind; [apply total_ensure_group|]. intros ?.
  eapply total_bind; [apply total_counter_field|]. intros c1.
  eapply total_bind; [apply total_counter_field|]. intros c2.
  eapply total_bind; [apply total_lift|]. intros d1.
  eapply total_bind.
  { eapply total_conseq; [| |apply (total_lift (λ h, is_dict h output))].
    - by intros ? [? _].
    - intros ? ? H. exact H. }
  intros rate1.
  assert (∀ (P : Prop) (m : M unit),
            (P → total (λ h, is_dict h output) m (λ h _, is_dict h output)) →
            total (λ h, is_dict h output ∧ P) m (λ h _, is_dict h output))
    as Hwith.
  { intros P m Hm h Hwf [Hd HP]. by apply Hm. }
  apply Hwith. intros Hrate1.
  eapply total_bind.
  { apply total_setitem2. by eapply val_truediv_scalar. }
  intros ?.
  eapply total_bind; [apply total_lift|]. intros d2.
  eapply total_bind.
  { eapply total_conseq; [| |apply (total_lift (λ h, is_dict h output))].
    - by intros ? [? _].
    - intros ? ? H. exact H. }
  intros rate2. apply Hwith. intros Hrate2.
  apply total_setitem2. by eapply val_truediv_scalar.
Qed.

Lemma total_zero_group (output : loc) (g f1 f2 : string) :
  total (λ h, is_dict h output) (zero_group output g f1 f2)
    (λ h _, is_dict h output).
Proof.
  unfold zero_group.
  eapply total_bind; [apply total_ensure_group|]. intros ?.
  eapply total_bind; [by apply total_setitem2|]. intros ?.
  by apply total_setitem2.
Qed.

Lemma total_zero_rates (output : loc) :
  total (λ h, is_dict h output) (zero_rates output) (λ h _, is_dict h output).
Proof.
  unfold zero_rates.
  eapply total_bind; [apply total_zero_group|]. intros ?.
  apply total_zero_group.
Qed.

(** With more fuel than the store has objects, [deepcopy_dict] of a
    [dict] returns a [dict]. *)
Lemma total_deepcopy_dict (fuel : nat) (l : loc) :
  total (λ h, is_dict h l ∧ length h < fuel) (deepcopy_dict fuel l)
    (λ h l', is_dict h l').
Proof.
  intros h Hwf [[d Hd] Hfuel].
  assert (l < length h) as Hl by by eapply lookup_lt_Some.
  pose proof (copy_pre_start h Hwf) as Hpre.
  destruct (deepcopy_total (length h) fuel [] [] (VRef l) h Hpre Hl)
    as [[h1 r1] Hcopy].
  { pose proof (unanswered_le (length h) []). lia. }
  destruct (deepcopy_copies (length h) fuel [] [] (VRef l) Hl h h1 r1
              Hpre Hcopy)
    as (memo' & v' & -> & Hpre1 & _ & Hrel & Hlow & Hlen).
  destruct Hrel as (l' & Hl' & ->).
  exists h1, (Ok l'). split.
  { unfold deepcopy_dict, bind. by rewrite Hcopy. }
  destruct Hpre1 as (Hwfb & _ & Hok & _ & _ & Hwfa).
  split; [|split].
  - intros a o Ha. destruct (decide (a < length h)) as [Hlt|Hge].
    + eapply Forall_impl; [by eapply Hwfb|]. intros v. by apply below_mono.
    + eapply Hwfa; [|done]. lia.
  - intros a o Ha. exists o. rewrite Hlow by by eapply lookup_lt_Some.
    split; [done|by destruct o].
  - intros _ [= <-].
    destruct (Hok l l' Hl') as (_ & _ & _ & [Hp|(o & o' & Ho & Ho' & Hrel)]).
    { by apply elem_of_nil in Hp. }
    rewrite Hlow, Hd in Ho by done. injection Ho as <-.
    destruct o' as [d'|xs]; [by exists d'|done].
Qed.

(** X21: [get_latest_with_derived] comes back, with a result or with an
    exception, from every store in which each reference names an object,
    whatever the objects refer to and even when they refer to one another
    in a cycle: the copy it makes needs no more steps than the store has
    objects. *)
Theorem get_latest_returns (fuel : nat) (self : processor) (h : heap) :
  wf h →
  (∀ latest, latest_sample self = Some latest → is_dict h latest) →
  length h < fuel →
  is_Some (get_latest_with_derived fuel self h).
Proof.
  intros Hwf Hlatest Hfuel.
  assert (total (λ h0, h0 = h) (get_latest_with_derived fuel self)
            (λ _ _, True)) as Htotal.
  { unfold get_latest_with_derived.
    destruct (latest_sample self) as [latest|] eqn:El; [|by apply total_ret].
    eapply total_bind.
    { eapply total_conseq; [| |apply (total_deepcopy_dict fuel latest)].
      - intros h0 ->. split; [by apply Hlatest|done].
      - intros ? ? H. exact H. }
    intros output.
    eapply total_bind; [apply total_lift|]. intros branch.
    eapply total_bind with (Q := λ h _, is_dict h output).
    { eapply total_conseq with (P := λ h, is_dict h output)
                               (Q := λ h _, is_dict h output).
      - by intros h0 [? _].
      - done.
      - destruct branch; [|apply total_zero_rates..].
        eapply total_bind; [apply total_derive_group|]. intros ?.
        apply total_derive_group. }
    intros ?. by apply total_ret. }
  destruct (Htotal h Hwf eq_refl) as (h' & r & Hr & _). by eexists.
Qed.

(** X20: [update] on a sample that is a [dict] comes back, with a result or
    with an exception, from every store in which each reference names an
    object, even when the sample refers to itself: the copy it makes needs
    no more steps than the store has objects.  The timestamps compared are
    immutable data. *)
Theorem update_returns (fuel : nat) (self : processor) (sample : loc)
    (d : list (string * pyval)) (h : heap) :
  wf h → h !! sample = Some (ODict d) →
  is_Some (scalar (default VNone (dict_get d "ts"))) →
  is_Some (scalar (last_seen_ts self)) →
  (∀ prev, latest_sample self = Some prev → is_dict h prev) →
  length h < fuel →
  is_Some (update fuel self sample h).
Proof.
  intros Hwf Hd Hts Hseen Hprev Hfuel.
  unfold update.
  rewrite (bind_ok_eq _ _ h h d (load_dict_ref _ sample d h Hd)).
  assert (is_Some
            ((stale <- not_advancing fuel self
                         (default VNone (dict_get d "ts"));;
              if stale : bool then ret (self, false)
              else
                self1 <- store_previous self;;
                copy <- deepcopy_dict fuel sample;;
                ret ({| latest_sample := Some copy;
                        last_seen_ts := default VNone (dict_get d "ts");
                        last_counter_values := last_counter_values self1;
                        last_counter_ts := last_counter_ts self1;
                        max_age_seconds := max_age_seconds self1 |}, true))
               h)) as Hrest.
  { assert (∃ r, not_advancing fuel self (default VNone (dict_get d "ts")) h
                 = Some (h, r)) as [r Hr].
    { unfold not_advancing.
      assert (∃ r, val_cmp fuel OpLe (default VNone (dict_get d "ts"))
                     (last_seen_ts self) h = Some (h, r)) as Hcmp.
      { unfold val_cmp.
        destruct (reify_scalar fuel h _ Hts) as [x ->].
        destruct (reify_scalar fuel h _ Hseen) as [y ->]. by eexists. }
      destruct (last_seen_ts self); try exact Hcmp. by eexists. }
    unfold bind at 1. rewrite Hr. destruct r as [[]|e]; try by eexists.
    assert (total (λ h0, h0 = h) (store_previous self) (λ h0 _, h0 = h))
      as Hsp.
    { intros h0 Hwf0 ->.
      assert (total (λ h0, ∀ prev, latest_sample self = Some prev →
                                   is_dict h0 prev)
                (store_previous self) (λ _ _, True)) as Ht.
      { unfold store_previous.
        destruct (latest_sample self) as [prev|]; [|by apply total_ret].
        do 4 (eapply total_bind with (Q := λ h _, is_dict h prev);
              [eapply total_conseq; [| |apply (total_counter_field prev)];
               [intros ? H; first [exact H | by apply H]|done]|]; intros ?).
        by apply total_ret. }
      destruct (Ht h Hwf Hprev) as (h1 & r1 & Hr1 & Hwf1 & Hext1 & _).
      pose proof (readonly_store_previous self _ _ _ Hr1) as ->.
      exists h, r1. split; [done|]. split; [done|].
      split; [apply extends_refl|done]. }
    destruct (Hsp h Hwf eq_refl) as (h1 & r1 & Hr1 & _ & _ & Hh1).
    unfold bind at 1. rewrite Hr1. destruct r1 as [self1|e]; [|by eexists].
    rewrite (Hh1 self1 eq_refl).
    destruct (total_deepcopy_dict fuel sample h Hwf)
      as (h2 & r2 & Hr2 & _); [by split; [exists d|]|].
    unfold bind. rewrite Hr2. destruct r2; by eexists. }
  destruct (default VNone (dict_get d "ts")); try exact Hrest. by eexists.
Qed.


End StoreFacts.



(** The scenario of a caller that mutates the sample after the call: the
    processor's answer is the one of the value model before and after. *)
Example mutation_scenario :
  Store.reify 4 mutated_heap (Store.VRef 2) = Some (JObj ∅) ∧
  Store.observe 4 stored_processor stored_heap =
    Store.observe 4 stored_processor mutated_heap ∧
  ∃ out,
    get_latest_with_derived (update (init 30) snapshot_100).1 =
      Ok (Some out) ∧
    Store.observe 4 stored_processor mutated_heap = Some (JObj out).
Proof.
  split; [by vm_compute|]. split; [by vm_compute|].
  eexists. split; vm_compute; reflexivity.
Qed.

Lemma update_returns_witness :
  is_Some (Store.update 7 (Store.init 30) 2 caller_heap).
Proof.
  apply (StoreFacts.update_returns 7 (Store.init 30) 2 caller_sample
           caller_heap).
  - apply StoreFacts.wfb_wf. reflexivity.
  - by vm_compute.
  - vm_compute. by eexists.
  - vm_compute. by eexists.
  - intros prev H. discriminate H.
  - vm_compute. lia.
Defined.

Lemma get_latest_returns_witness :
  is_Some (Store.get_latest_with_derived 10 stored_processor stored_heap).
Proof.
  apply (StoreFacts.get_latest_returns 10 stored_processor stored_heap).
  - apply StoreFacts.wfb_wf. reflexivity.
  - intros latest H. vm_compute in H. injection H as <-.
    eexists. vm_compute. reflexivity.
  - vm_compute. lia.
Defined.

(* ===================================================================== *)
(** * Further properties of the processor *)
(* ===================================================================== *)


Lemma Qle_bool_refl (q : Q) : Qle_bool q q = true.
Proof. apply Qle_bool_iff, Qle_refl. Qed.

Lemma string_leb_refl (s : string) : String.leb s s = true.
Proof.
  unfold String.leb.
  assert (String.compare s s = Eq) as ->; [|done].
  induction s as [|c s IH]; simpl; [done|].
  assert (Ascii.compare c c = Eq) as ->; [|done].
  unfold Ascii.compare. apply N.compare_refl.
Qed.

(** [x <= x] is never false: it is true, or the operands do not compare. *)
Lemma py_cmp_refl (x : json) : py_cmp OpLe x x ≠ Ok false.
Proof.
  induction x as [|b|z|q|s|l IH|d IH] using json_tree_ind; try done.
  - simpl. by rewrite Qle_bool_refl.
  - simpl. by rewrite Qle_bool_refl.
  - simpl. by rewrite Qle_bool_refl.
  - simpl. by rewrite string_leb_refl.
  - induction IH as [|x l Hx _ IHl].
    + done.
    + change (py_cmp OpLe (JArr (x :: l)) (JArr (x :: l)))
        with (if py_eq x x then py_cmp OpLe (JArr l) (JArr l)
              else py_cmp OpLe x x).
      by destruct (py_eq x x).
Qed.









(** Calling [update] once more on the sample of the call before. *)
Lemma update_again (self : processor) (sample : gmap string json) :
  (update (update self sample).1 sample).1 = (update self sample).1 ∧
  (update (update self sample).1 sample).2 ≠ Ok true.
Proof.
  destruct (update self sample) as [self' r] eqn:Hu.
  assert (r = Ok true ∨ r ≠ Ok true) as [->|Hr]
    by (destruct r as [[]|]; auto).
  - apply update_accepted in Hu as (ts & self1 & Hts & Hnn & _ & _ & ->).
    simpl.
    set (self' := {| latest_sample := Some sample;
                     last_seen_ts := ts;
                     last_counter_values := last_counter_values self1;
                     last_counter_ts := last_counter_ts self1;
                     max_age_seconds := max_age_seconds self1 |}).
    assert (not_advancing self' ts = py_cmp OpLe ts ts) as Hadv.
    { unfold not_advancing. simpl. by destruct ts. }
    assert (update self' sample = (self', Ok false) ∨
            ∃ e, update self' sample = (self', Raise e)) as [->|[e ->]];
      [|done..].
    unfold update. rewrite Hts. simpl. rewrite Hadv.
    pose proof (py_cmp_refl ts) as Hrefl.
    destruct (py_cmp OpLe ts ts) as [[]|e]; [left|done|right; exists e];
      by destruct ts.
  - assert (self' = self) as ->.
    { replace self' with (update self sample).1 by by rewrite Hu.
      apply update_not_accepted. by rewrite Hu. }
    simpl. by rewrite Hu.
Qed.

(** X3: submitting a sample once more changes nothing: the second call is
    not accepted and leaves the processor as the first call left it. *)
Theorem update_resubmitted (self : processor) (sample : gmap string json) :
  (update (update self sample).1 sample).1 = (update self sample).1 ∧
  (update (update self sample).1 sample).2 ≠ Ok true.
Proof. apply update_again. Qed.

(* ===================================================================== *)
(** * Further properties of the rate computation *)
(* ===================================================================== *)










Lemma field_of_group_dict (snap : gmap string json) (g f : string) :
  field_of snap g f = group_dict snap g !! f.
Proof.
  unfold field_of, group_dict. by destruct (snap !! g) as [[]|].
Qed.

(** What a step on a group leaves of the output: the group with its other
    fields as they were, and the other keys as they were. *)
Lemma setitem2_twice_kept (output out1 out : gmap string json)
    (g f1 f2 : string) (v1 v2 : json) :
  setitem2 (ensure_group output g) g f1 v1 = Ok out1 →
  setitem2 out1 g f2 v2 = Ok out →
  (∀ f, f ≠ f1 → f ≠ f2 → field_of out g f = field_of output g f) ∧
  ∀ g', g' ≠ g → out !! g' = output !! g'.
Proof.
  intros H1 H2.
  apply setitem2_ok in H1 as (d1 & Hd1 & ->).
  apply setitem2_ok in H2 as (d2 & Hd2 & ->).
  rewrite lookup_insert_eq in Hd2. injection Hd2 as <-.
  split.
  - intros f Hf1 Hf2. unfold field_of at 1. rewrite lookup_insert_eq.
    rewrite !lookup_insert_ne by done.
    rewrite field_of_group_dict. unfold group_dict.
    unfold ensure_group in Hd1.
    destruct (output !! g) as [x|] eqn:E.
    + rewrite E in Hd1. by injection Hd1 as ->.
    + rewrite lookup_insert_eq in Hd1. by injection Hd1 as <-.
  - intros g' Hne. rewrite !lookup_insert_ne by done.
    by apply ensure_group_other.
Qed.

Lemma zero_group_kept (output out : gmap string json) (g f1 f2 : string) :
  zero_group output g f1 f2 = Ok out →
  (∀ f, f ≠ f1 +:+ "_rate" → f ≠ f2 +:+ "_rate" →
        field_of out g f = field_of output g f) ∧
  ∀ g', g' ≠ g → out !! g' = output !! g'.
Proof.
  unfold zero_group. intros H. apply bind_ok in H as (out1 & H1 & H2).
  by eapply setitem2_twice_kept.
Qed.

Lemma derive_group_kept (self : processor) (time_delta : json)
    (output out : gmap string json) (g f1 f2 : string) :
  derive_group self time_delta output g f1 f2 = Ok out →
  (∀ f, f ≠ f1 +:+ "_rate" → f ≠ f2 +:+ "_rate" →
        field_of out g f = field_of output g f) ∧
  ∀ g', g' ≠ g → out !! g' = output !! g'.
Proof.
  unfold derive_group. intros H.
  apply bind_ok in H as (c1 & _ & H).
  apply bind_ok in H as (c2 & _ & H).
  apply bind_ok in H as (d1 & _ & H).
  apply bind_ok in H as (r1 & _ & H).
  apply bind_ok in H as (out1 & H1 & H).
  apply bind_ok in H as (d2 & _ & H).
  apply bind_ok in H as (r2 & _ & H2).
  by eapply setitem2_twice_kept.
Qed.

(** The two groups, one step after the other. *)
Lemma two_groups_kept (output out1 out : gmap string json) :
  ((∀ f, f ≠ "read_sectors_rate" → f ≠ "write_sectors_rate" →
         field_of out1 "disk" f = field_of output "disk" f) ∧
   ∀ g', g' ≠ "disk" → out1 !! g' = output !! g') →
  ((∀ f, f ≠ "rx_bytes_rate" → f ≠ "tx_bytes_rate" →
         field_of out "network" f = field_of out1 "network" f) ∧
   ∀ g', g' ≠ "network" → out !! g' = out1 !! g') →
  (∀ k, k ≠ "disk" → k ≠ "network" → out !! k = output !! k) ∧
  (∀ f, f ≠ "read_sectors_rate" → f ≠ "write_sectors_rate" →
        field_of out "disk" f = field_of output "disk" f) ∧
  (∀ f, f ≠ "rx_bytes_rate" → f ≠ "tx_bytes_rate" →
        field_of out "network" f = field_of output "network" f).
Proof.
  intros [Hd1 Ho1] [Hn2 Ho2]. split; [|split].
  - intros k Hkd Hkn. by rewrite Ho2, Ho1.
  - intros f Hf1 Hf2. rewrite <- Hd1 by done.
    unfold field_of. by rewrite Ho2.
  - intros f Hf1 Hf2. rewrite Hn2 by done.
    unfold field_of. by rewrite Ho1.
Qed.

Lemma get_latest_kept (self : processor) (latest out : gmap string json) :
  latest_sample self = Some latest →
  get_latest_with_derived self = Ok (Some out) →
  (∀ k, k ≠ "disk" → k ≠ "network" → out !! k = latest !! k) ∧
  (∀ f, f ≠ "read_sectors_rate" → f ≠ "write_sectors_rate" →
        field_of out "disk" f = field_of latest "disk" f) ∧
  (∀ f, f ≠ "rx_bytes_rate" → f ≠ "tx_bytes_rate" →
        field_of out "network" f = field_of latest "network" f).
Proof.
  unfold get_latest_with_derived. intros ->. rewrite deepcopy_dict_id.
  intros H. apply bind_ok in H as (branch & _ & H).
  apply bind_ok in H as (out' & H & [= ->]).
  destruct branch as [time_delta| |].
  - apply bind_ok in H as (out1 & H1 & H2).
    apply derive_group_kept in H1, H2.
    by apply (two_groups_kept latest out1).
  - unfold zero_rates in H. apply bind_ok in H as (out1 & H1 & H2).
    apply zero_group_kept in H1, H2.
    by apply (two_groups_kept latest out1).
  - unfold zero_rates in H. apply bind_ok in H as (out1 & H1 & H2).
    apply zero_group_kept in H1, H2.
    by apply (two_groups_kept latest out1).
Qed.

(** X5: what [get_latest_with_derived] returns is the snapshot kept with
    the four rates written into it and nothing else changed: every key
    other than [disk] and [network] has the value it has in the snapshot,
    and so has every field of the two groups other than the rates. *)
Theorem derived_keeps_snapshot (self : processor)
    (latest out : gmap string json) :
  latest_sample self = Some latest →
  get_latest_with_derived self = Ok (Some out) →
  (∀ k, k ≠ "disk" → k ≠ "network" → out !! k = latest !! k) ∧
  (∀ f, f ≠ "read_sectors_rate" → f ≠ "write_sectors_rate" →
        field_of out "disk" f = field_of latest "disk" f) ∧
  (∀ f, f ≠ "rx_bytes_rate" → f ≠ "tx_bytes_rate" →
        field_of out "network" f = field_of latest "network" f).
Proof. apply get_latest_kept. Qed.

Lemma derived_keeps_snapshot_witness :
  get_latest_with_derived after_two = Ok (Some derived_after_two) ∧
  derived_after_two !! "ts" = Some (JInt 110) ∧
  field_of derived_after_two "disk" "read_sectors" = Some (JInt 1100) ∧
  field_of derived_after_two "network" "tx_bytes" = Some (JInt 1300).
Proof.
  assert (get_latest_with_derived after_two = Ok (Some derived_after_two))
    as E by (vm_compute; reflexivity).
  split; [exact E|].
  destruct (derived_keeps_snapshot after_two snapshot_110 derived_after_two
              eq_refl E) as (Hk & Hd & Hn).
  rewrite (Hk "ts"), (Hd "read_sectors"), (Hn "tx_bytes") by done.
  by vm_compute.
Defined.

(* ===================================================================== *)
(** * Further properties of the dashboard's endpoints *)
(* ===================================================================== *)

Lemma health_ts_inj (s1 s2 : string) (t1 t2 : json) :
  health s1 t1 = health s2 t2 → t1 = t2.
Proof.
  intros H.
  assert (health s1 t1 !! "last_seen_ts" = health s2 t2 !! "last_seen_ts")
    as Hl by by rewrite H.
  rewrite !(proj2 (health_fields _ _)) in Hl. by injection Hl.
Qed.

(** What [get_health_status] returns carries the timestamp kept. *)
Lemma get_health_status_ts (self : processor) (current_time : Q)
    (h : gmap string json) :
  get_health_status self current_time = Ok h →
  h !! "last_seen_ts" = Some (last_seen_ts self).
Proof.
  unfold get_health_status. intros H.
  assert (∃ s, h = health s (last_seen_ts self)) as [s ->].
  { destruct (last_seen_ts self) eqn:E;
      [injection H as <-; by eexists|..];
      apply bind_ok in H as (age & _ & H);
      apply bind_ok in H as ([] & _ & [= <-]); by eexists. }
  apply health_fields.
Qed.

(** X6: in every state a run of [update] calls reaches, the two endpoints
    agree: [GET /metrics] answers 503 exactly when [GET /health] reports
    "stale" without a timestamp, and when both answer 200 the [ts] of the
    metrics is the [last_seen_ts] of the health report. *)
Theorem endpoints_agree (max_age : Z) (self : processor) (current_time : Q) :
  reachable max_age self →
  (do_GET self current_time "/metrics" =
     Ok (ErrorResponse 503 (Message "No metrics available")) ↔
   do_GET self current_time "/health" =
     Ok (JsonResponse 200 (JObj (health "stale" JNull)))) ∧
  ∀ out h,
    do_GET self current_time "/metrics" = Ok (JsonResponse 200 (JObj out)) →
    do_GET self current_time "/health" = Ok (JsonResponse 200 (JObj h)) →
    out !! "ts" = h !! "last_seen_ts".
Proof.
  intros Hreach. apply reachable_consistent in Hreach as [Hc _].
  change (do_GET self current_time "/metrics") with (_serve_metrics self).
  change (do_GET self current_time "/health")
    with (_serve_health self current_time).
  unfold _serve_metrics, _serve_health. split.
  - split.
    + intros H.
      assert (latest_sample self = None) as Hl.
      { apply get_latest_none.
        destruct (get_latest_with_derived self) as [[out|]|e]; by simpl in H. }
      rewrite Hl in Hc. destruct Hc as (Hseen & _).
      unfold get_health_status. by rewrite Hseen.
    + intros H.
      destruct (get_health_status self current_time) as [h|e] eqn:Hh;
        [|done].
      simpl in H. injection H as ->.
      apply get_health_status_ts in Hh.
      rewrite (proj2 (health_fields _ _)) in Hh. injection Hh as Hseen.
      assert (latest_sample self = None) as Hl.
      { destruct (latest_sample self) as [latest|]; [|done].
        by destruct Hc as [_ Hnn]. }
      apply get_latest_none in Hl. by rewrite Hl.
  - intros out h Hm Hh.
    destruct (get_latest_with_derived self) as [[out'|]|e] eqn:Hout;
      simpl in Hm; try done. injection Hm as ->.
    destruct (get_health_status self current_time) as [h'|e] eqn:Hh';
      simpl in Hh; [|done]. injection Hh as ->.
    rewrite (get_health_status_ts _ _ _ Hh').
    destruct (latest_sample self) as [latest|] eqn:Hl.
    + destruct Hc as [Hts _].
      destruct (get_latest_kept self latest out Hl Hout) as (Hk & _ & _).
      by rewrite Hk.
    + apply get_latest_none in Hl. congruence.
Qed.

Lemma endpoints_agree_witness :
  (do_GET (update (init 30) snapshot_100).1 130 "/metrics" =
     Ok (ErrorResponse 503 (Message "No metrics available")) ↔
   do_GET (update (init 30) snapshot_100).1 130 "/health" =
     Ok (JsonResponse 200 (JObj (health "stale" JNull)))) ∧
  ∀ out h,
    do_GET (update (init 30) snapshot_100).1 130 "/metrics" =
      Ok (JsonResponse 200 (JObj out)) →
    do_GET (update (init 30) snapshot_100).1 130 "/health" =
      Ok (JsonResponse 200 (JObj h)) →
    out !! "ts" = h !! "last_seen_ts".
Proof.
  apply (endpoints_agree 30 (update (init 30) snapshot_100).1 130).
  apply reachable_update, reachable_init.
Defined.

(** X7: [DashboardHandler.do_GET] answers 404 for the paths it does not
    serve and for no other: the dashboard page, the metrics and the health
    report never answer 404, whatever the processor holds. *)
Theorem dashboard_not_found (self : processor) (current_time : Q)
    (path : string) :
  do_GET self current_time path = Ok (ErrorResponse 404 NoMessage) ↔
  path ∉ dashboard_paths.
Proof.
  unfold dashboard_paths.
  rewrite !not_elem_of_cons.
  unfold do_GET.
  destruct (String.eqb path "/") eqn:E1;
    [apply String.eqb_eq in E1 as ->; simpl; split; [done|by intros [? _]]|].
  destruct (String.eqb path "/index.html") eqn:E2;
    [apply String.eqb_eq in E2 as ->; simpl;
     split; [done|by intros (_ & ? & _)]|].
  simpl.
  destruct (String.eqb path "/metrics") eqn:E3.
  { apply String.eqb_eq in E3 as ->. split; [|by intros (_ & _ & ? & _)].
    unfold _serve_metrics.
    by destruct (get_latest_with_derived self) as [[out|]|e]. }
  destruct (String.eqb path "/health") eqn:E4.
  { apply String.eqb_eq in E4 as ->. split; [|by intros (_ & _ & _ & ? & _)].
    unfold _serve_health.
    by destruct (get_health_status self current_time) as [h|e]. }
  apply String.eqb_neq in E1, E2, E3, E4.
  split; [intros _|done].
  repeat split; try done. apply not_elem_of_nil.
Qed.

(* ===================================================================== *)
(** * Further properties of the poller *)
(* ===================================================================== *)

Lemma max_from_elem (key : json → json) (best best_key : json)
    (rest : list json) (x : json) :
  max_from key best best_key rest = Ok x → x = best ∨ x ∈ rest.
Proof.
  revert best best_key. induction rest as [|item rest IH];
    intros best best_key; simpl.
  - intros [= ->]. by left.
  - intros H. apply bind_ok in H as (greater & _ & H).
    destruct greater; apply IH in H as [->|H]; auto;
      right; by constructor.
Qed.

Lemma py_max_elem (key : json → json) (items : list json) (x : json) :
  py_max key items = Ok x → x ∈ items.
Proof.
  destruct items as [|first rest]; simpl; [done|].
  intros H. apply max_from_elem in H as [->|H]; by constructor.
Qed.

(** What one iteration does with the value fetched does not depend on the
    processor: it forwards one value, or it logs a line and forwards
    nothing. *)
Lemma poll_once_select (metrics_data : json) :
  (∃ x, (metrics_data = x ∧ is_object x ∨
         ∃ items, metrics_data = JArr items ∧ x ∈ items) ∧
        ∀ p, poll_once p metrics_data = forward_sample p x) ∨
  (∃ log, is_log_accepted log = false ∧
          ∀ p, poll_once p metrics_data = PollOutcome p None log).
Proof.
  destruct metrics_data as [|b|z|q|s|items|d].
  - right. by exists LogNoData.
  - right. by exists LogUnexpectedFormat.
  - right. by exists LogUnexpectedFormat.
  - right. by exists LogUnexpectedFormat.
  - right. by exists LogUnexpectedFormat.
  - destruct items as [|first rest]; [right; by exists LogEmptyArray|].
    destruct (py_max ts_key (first :: rest)) as [x|e] eqn:Hmax.
    + left. exists x. split.
      * right. eexists. split; [done|]. by apply py_max_elem in Hmax.
      * intros p. unfold poll_once. by rewrite Hmax.
    + right. exists (LogProcessingError e). split; [done|].
      intros p. unfold poll_once. by rewrite Hmax.
  - left. exists (JObj d). split; [left; split; [done|by exists d]|done].
Qed.

(** Forwarding a value: the processor changes only when the sample is
    accepted. *)
Lemma forward_sample_cases (p : processor) (x : json) :
  (∃ d ts, x = JObj d ∧ d !! "ts" = Some ts ∧
           update p d = (poll_processor (forward_sample p x), Ok true) ∧
           poll_forwarded (forward_sample p x) = Some d ∧
           poll_logged (forward_sample p x) = LogAccepted ts) ∨
  (is_log_accepted (poll_logged (forward_sample p x)) = false ∧
   poll_processor (forward_sample p x) = p ∧
   ∀ d, poll_forwarded (forward_sample p x) = Some d → x = JObj d).
Proof.
  destruct x as [| | | | | |d]; try (right; by repeat split).
  simpl. destruct (update p d) as [p' r] eqn:Hu.
  assert (r = Ok true ∨ r ≠ Ok true) as [->|Hr]
    by (destruct r as [[]|]; auto).
  - left. pose proof Hu as Hacc.
    apply update_accepted in Hacc as (ts & self1 & Hts & _ & _ & _ & _).
    exists d, ts. rewrite Hts. by repeat split.
  - right.
    assert (p' = p) as ->.
    { replace p' with (update p d).1 by by rewrite Hu.
      apply update_not_accepted. by rewrite Hu. }
    destruct r as [[]|e]; [done|..]; simpl;
      (split; [done|]; split; [done|]; by intros ? [= ->]).
Qed.


(** X9: what the poller forwards to [update] is part of the response: the
    response itself when it is an object, an element of the array when it
    is an array; for any other response nothing is forwarded. *)
Theorem poll_forwards_part_of_response (processor0 : processor)
    (metrics_data : json) (d : gmap string json) :
  poll_forwarded (poll_once processor0 metrics_data) = Some d →
  metrics_data = JObj d ∨
  ∃ items, metrics_data = JArr items ∧ JObj d ∈ items.
Proof.
  destruct (poll_once_select metrics_data)
    as [(x & Hsel & Hx)|(log & _ & Hx)]; rewrite Hx; [|done].
  intros Hf.
  assert (x = JObj d) as ->.
  { destruct (forward_sample_cases processor0 x)
      as [(d' & ts & -> & _ & _ & Hf' & _)|(_ & _ & Hd)]; [|by apply Hd].
    congruence. }
  destruct Hsel as [[-> _]|(items & -> & Hin)]; [by left|].
  right. by exists items.
Qed.

Lemma poll_forwards_part_of_response_witness :
  JArr batch_5_9_7 = JObj (<["ts" := JInt 9]> ∅) ∨
  ∃ items, JArr batch_5_9_7 = JArr items ∧
           JObj (<["ts" := JInt 9]> ∅) ∈ items.
Proof.
  apply (poll_forwards_part_of_response (init 30)).
  by vm_compute.
Defined.

Section PollerFacts.
Variable loads : string → option json.

Lemma poll_loop_cons (p : processor) (resp : upstream)
    (rest : list upstream) :
  poll_upstream_metrics loads p (resp :: rest) =
    ((poll_upstream_metrics loads
        (poll_processor (poll_once p (_fetch_metrics_sync loads resp)))
        rest).1,
     poll_logged (poll_once p (_fetch_metrics_sync loads resp)) ::
     (poll_upstream_metrics loads
        (poll_processor (poll_once p (_fetch_metrics_sync loads resp)))
        rest).2).
Proof.
  simpl.
  by destruct (poll_upstream_metrics loads
                 (poll_processor
                    (poll_once p (_fetch_metrics_sync loads resp))) rest).
Qed.

(** One iteration, by whether it logged an accepted sample. *)
Lemma poll_once_step (p : processor) (metrics_data : json) :
  (is_log_accepted (poll_logged (poll_once p metrics_data)) = true ∧
   ∃ d, poll_processor (poll_once p metrics_data) = (update p d).1 ∧
        latest_sample (poll_processor (poll_once p metrics_data)) = Some d) ∨
  (is_log_accepted (poll_logged (poll_once p metrics_data)) = false ∧
   poll_processor (poll_once p metrics_data) = p).
Proof.
  destruct (poll_once_select metrics_data)
    as [(x & _ & Hx)|(log & Hlog & Hx)]; rewrite Hx; [|by right].
  destruct (forward_sample_cases p x)
    as [(d & ts & -> & Hts & Hu & Hf & Hl)|(Hl & Hp & _)]; [|by right].
  left. rewrite Hl. split; [done|]. exists d.
  split; [by rewrite Hu|].
  by apply update_accepted in Hu as (? & ? & _ & _ & _ & _ & ->).
Qed.

Lemma poll_loop_reachable (max_age : Z) (p : processor)
    (fetches : list upstream) :
  reachable max_age p →
  reachable max_age (poll_upstream_metrics loads p fetches).1.
Proof.
  revert p. induction fetches as [|resp rest IH]; intros p Hp; [done|].
  rewrite poll_loop_cons. simpl. apply IH.
  destruct (poll_once_step p (_fetch_metrics_sync loads resp))
    as [(_ & d & -> & _)|(_ & ->)]; [by constructor|done].
Qed.

Lemma poll_loop_latest_none (p : processor) (fetches : list upstream) :
  latest_sample (poll_upstream_metrics loads p fetches).1 = None ↔
  latest_sample p = None ∧
  Forall (λ l, is_log_accepted l = false)
    (poll_upstream_metrics loads p fetches).2.
Proof.
  revert p. induction fetches as [|resp rest IH]; intros p.
  - simpl. split; [by split|by intros [? _]].
  - rewrite poll_loop_cons. simpl. rewrite IH, Forall_cons.
    destruct (poll_once_step p (_fetch_metrics_sync loads resp))
      as [(Hl & d & _ & Hd)|(Hl & ->)]; rewrite Hl.
    + rewrite Hd. split; [by intros [? _]|by intros (_ & ? & _)].
    + split; [by intros [? ?]|by intros (? & _ & ?)].
Qed.

(** X10: however the fetches of the polling loop turn out, the processor
    it leaves is one a sequence of [update] calls reaches, and
    [get_latest_with_derived] returns [None], so [GET /metrics] answers
    503, exactly when no iteration logged an accepted sample. *)
Theorem poll_loop_serves (max_age : Z) (fetches : list upstream)
    (current_time : Q) :
  reachable max_age
    (poll_upstream_metrics loads (init max_age) fetches).1 ∧
  (get_latest_with_derived
     (poll_upstream_metrics loads (init max_age) fetches).1 = Ok None ↔
   Forall (λ l, is_log_accepted l = false)
     (poll_upstream_metrics loads (init max_age) fetches).2) ∧
  (do_GET (poll_upstream_metrics loads (init max_age) fetches).1
     current_time "/metrics" =
     Ok (ErrorResponse 503 (Message "No metrics available")) ↔
   Forall (λ l, is_log_accepted l = false)
     (poll_upstream_metrics loads (init max_age) fetches).2).
Proof.
  assert (get_latest_with_derived
            (poll_upstream_metrics loads (init max_age) fetches).1 = Ok None ↔
          Forall (λ l, is_log_accepted l = false)
            (poll_upstream_metrics loads (init max_age) fetches).2) as Hnone.
  { rewrite get_latest_none, poll_loop_latest_none. simpl.
    split; [by intros [_ ?]|by split]. }
  split; [apply poll_loop_reachable, reachable_init|]. split; [done|].
  rewrite <- Hnone.
  change (do_GET ?p current_time "/metrics") with (_serve_metrics p).
  unfold _serve_metrics.
  destruct (get_latest_with_derived _) as [[out|]|e]; simpl;
    split; congruence.
Qed.

(** X11: a fetch that failed, answered with another status than 200 or
    with a body that does not parse, or fetched [null], is as if it had not
    happened: it logs that no data was received, and the processor the
    loop leaves is the one the other fetches alone would have left. *)
Theorem failed_fetches_leave_no_trace (p : processor)
    (fetches : list upstream) :
  (poll_upstream_metrics loads p fetches).1 =
    (poll_upstream_metrics loads p
       (List.filter (λ resp, negb (fetch_failed loads resp)) fetches)).1 ∧
  (∀ resp, fetch_failed loads resp = true →
           poll_once p (_fetch_metrics_sync loads resp) =
             PollOutcome p None LogNoData) ∧
  (∀ status body, status ≠ 200%Z →
                  fetch_failed loads (UpstreamResponse status body) = true) ∧
  fetch_failed loads UpstreamURLError = true ∧
  fetch_failed loads UpstreamException = true.
Proof.
  assert (∀ p resp, fetch_failed loads resp = true →
                    poll_once p (_fetch_metrics_sync loads resp) =
                      PollOutcome p None LogNoData) as Hfail.
  { intros p0 resp. unfold fetch_failed.
    by destruct (_fetch_metrics_sync loads resp). }
  split; [|split; [apply Hfail|split; [|done]]].
  - revert p. induction fetches as [|resp rest IH]; intros p; [done|].
    rewrite poll_loop_cons. cbn [List.filter].
    destruct (fetch_failed loads resp) eqn:E; cbn [negb fst].
    + rewrite (Hfail p resp E). cbn [poll_processor]. apply IH.
    + rewrite poll_loop_cons. cbn [fst]. apply IH.
  - intros status body Hs. unfold fetch_failed. simpl.
    by apply Z.eqb_neq in Hs as ->.
Qed.
End PollerFacts.

(** X12: polling an upstream that still serves the same response changes
    nothing: the second iteration accepts no sample and leaves the
    processor as the first one left it. *)
Theorem poll_repeated (processor0 : processor) (metrics_data : json) :
  poll_processor
    (poll_once (poll_processor (poll_once processor0 metrics_data))
       metrics_data) =
    poll_processor (poll_once processor0 metrics_data) ∧
  is_log_accepted
    (poll_logged
       (poll_once (poll_processor (poll_once processor0 metrics_data))
          metrics_data)) = false.
Proof.
  destruct (poll_once_select metrics_data)
    as [(x & _ & Hx)|(log & Hlog & Hx)]; rewrite !Hx; [|done].
  destruct x as [| | | | | |d]; try done.
  pose proof (update_again processor0 d) as [Hsame Hnot].
  simpl. destruct (update processor0 d) as [p1 r1]. simpl in *.
  assert (poll_processor
            match r1 with
            | Ok true => PollOutcome p1 (Some d)
                           (LogAccepted (default JNull (d !! "ts")))
            | Ok false => PollOutcome p1 (Some d)
                            (LogRejected (default JNull (d !! "ts")))
            | Raise e => PollOutcome p1 (Some d) (LogProcessingError e)
            end = p1) as -> by by destruct r1 as [[]|].
  destruct (update p1 d) as [p2 r2]. simpl in *. subst p2.
  by destruct r2 as [[]|].
Qed.

(* ===================================================================== *)
(** * Further properties of the file-backed relay *)
(* ===================================================================== *)

Section MonitorFacts.
Variable loads : string → option json.
Variable strip : string → string.
Variable dict_of_pairs : json → result (gmap string json).
Variable METRICS_FILE : string.
Variable EVENTS_FILE : string.

(** One turn of the loop over the lines. *)
Lemma read_lines_cons (line : string) (rest : list string)
    (metrics : list json) (latest : json) :
  read_lines loads strip (line :: rest) metrics latest =
    match parse_line loads strip line with
    | Some metric => read_lines loads strip rest (metrics ++ [metric]) metric
    | None => read_lines loads strip rest metrics latest
    end.
Proof.
  simpl. unfold parse_line. by destruct (String.eqb (strip line) "").
Qed.

(** The loop over the lines: every line adds what it parses to, in the
    order of the file, and the latest value is the last one added. *)
Lemma read_lines_metrics (lines : list string) (metrics : list json)
    (latest : json) :
  (read_lines loads strip lines metrics latest).1 =
    metrics ++ omap (parse_line loads strip) lines.
Proof.
  revert metrics latest.
  induction lines as [|line rest IH]; intros metrics latest.
  - simpl. by rewrite app_nil_r.
  - rewrite read_lines_cons. cbn [omap list_omap].
    destruct (parse_line loads strip line) as [metric|]; [|apply IH].
    rewrite IH. by rewrite <- app_assoc.
Qed.

Lemma read_lines_last (lines : list string) (metrics : list json)
    (latest : json) :
  (read_lines loads strip lines metrics latest).2 =
    default latest (last (omap (parse_line loads strip) lines)).
Proof.
  revert metrics latest.
  induction lines as [|line rest IH]; intros metrics latest; [done|].
  rewrite read_lines_cons. cbn [omap list_omap].
  destruct (parse_line loads strip line) as [metric|]; [|apply IH].
  rewrite IH, last_cons.
  by destruct (last (omap (parse_line loads strip) rest)).
Qed.

Lemma load_metrics_lines (lines : list string) (now : Q) (globals : relay) :
  load_metrics loads strip (FileLines lines) now globals =
    {| metrics_cache := omap (parse_line loads strip) lines;
       latest_metric_cache :=
         default (JObj ∅) (last (omap (parse_line loads strip) lines));
       last_refresh := now |}.
Proof.
  unfold load_metrics.
  pose proof (read_lines_metrics lines [] (JObj ∅)) as H1.
  pose proof (read_lines_last lines [] (JObj ∅)) as H2.
  destruct (read_lines loads strip lines [] (JObj ∅)) as [metrics latest].
  simpl in *. by subst.
Qed.



(** The two caches of the metrics go together. *)
Lemma load_metrics_coherent (file : metrics_file) (now : Q)
    (globals : relay) :
  latest_metric_cache globals =
    default (JObj ∅) (last (metrics_cache globals)) →
  latest_metric_cache (load_metrics loads strip file now globals) =
    default (JObj ∅)
      (last (metrics_cache (load_metrics loads strip file now globals))).
Proof.
  intros H. destruct file as [|lines|]; [done| |done].
  by rewrite load_metrics_lines.
Qed.

Lemma refresh_relay (t : tick) (globals : monitor) :
  monitor_relay (refresh loads strip t globals) =
    load_metrics loads strip (tick_metrics t) (tick_now t)
      (monitor_relay globals).
Proof. unfold refresh. by destruct (tick_events t). Qed.

Lemma refresh_loop_invariant (P : relay → Prop) (ticks : list tick)
    (globals : monitor) :
  (∀ file now g, P g → P (load_metrics loads strip file now g)) →
  P (monitor_relay globals) →
  P (monitor_relay (refresh_loop loads strip ticks globals)).
Proof.
  intros Hstep. revert globals.
  induction ticks as [|t rest IH]; intros globals HP; [done|].
  simpl. apply IH. rewrite refresh_relay. by apply Hstep.
Qed.

(** X15: at every moment of the relay's life, after the initial load and
    any number of refreshes, some of which may have failed, the latest
    metric served is the last entry of the metrics cache, and [{}] when
    the cache is empty: [GET /latest] then answers 200 with [{}]. *)
Theorem relay_caches_coherent (first : tick) (ticks : list tick) :
  latest_metric_cache (monitor_relay (relay_main loads strip first ticks)) =
    default (JObj ∅)
      (last (metrics_cache
               (monitor_relay (relay_main loads strip first ticks)))) ∧
  (metrics_cache (monitor_relay (relay_main loads strip first ticks)) = [] →
   MetricsHandler_do_GET dict_of_pairs METRICS_FILE EVENTS_FILE
     (relay_main loads strip first ticks) "/latest" =
     Reply (JsonResponse 200 (JObj ∅))).
Proof.
  assert (latest_metric_cache
            (monitor_relay (relay_main loads strip first ticks)) =
          default (JObj ∅)
            (last (metrics_cache
                     (monitor_relay (relay_main loads strip first ticks)))))
    as Hc.
  { unfold relay_main.
    apply (refresh_loop_invariant
             (λ g, latest_metric_cache g =
                   default (JObj ∅) (last (metrics_cache g)))).
    - intros file now g. apply load_metrics_coherent.
    - rewrite refresh_relay. by apply load_metrics_coherent. }
  split; [done|]. intros Hempty.
  unfold MetricsHandler_do_GET, serve_latest_metric. simpl.
  by rewrite Hc, Hempty.
Qed.




(** X17: [MetricsHandler.do_GET] answers 404 for the paths it does not
    serve and for no other; the events are always answered with 200 and
    the text of the events cache. *)
Theorem relay_not_found (globals : monitor) (path : string) :
  (MetricsHandler_do_GET dict_of_pairs METRICS_FILE EVENTS_FILE globals path =
     Reply (ErrorResponse 404 NoMessage) ↔
   path ∉ relay_paths) ∧
  MetricsHandler_do_GET dict_of_pairs METRICS_FILE EVENTS_FILE globals
    "/events" = TextReply 200 (events_cache globals) ∧
  MetricsHandler_do_GET dict_of_pairs METRICS_FILE EVENTS_FILE globals
    "/events.log" = TextReply 200 (events_cache globals).
Proof.
  split; [|done].
  unfold relay_paths. rewrite !not_elem_of_cons.
  unfold MetricsHandler_do_GET.
  destruct (String.eqb path "/latest") eqn:E1.
  { apply String.eqb_eq in E1 as ->. simpl. split; [|by intros [? _]].
    unfold serve_latest_metric.
    by destruct (py_dict dict_of_pairs _). }
  destruct (String.eqb path "/latest.json") eqn:E2.
  { apply String.eqb_eq in E2 as ->. simpl. split; [|by intros (_ & ? & _)].
    unfold serve_latest_metric.
    by destruct (py_dict dict_of_pairs _). }
  destruct (String.eqb path "/events") eqn:E3;
    [apply String.eqb_eq in E3 as ->; simpl;
     split; [done|by intros (_ & _ & ? & _)]|].
  destruct (String.eqb path "/events.log") eqn:E4;
    [apply String.eqb_eq in E4 as ->; simpl;
     split; [done|by intros (_ & _ & _ & ? & _)]|].
  destruct (String.eqb path "/") eqn:E5;
    [apply String.eqb_eq in E5 as ->; simpl;
     split; [done|by intros (_ & _ & _ & _ & ? & _)]|].
  simpl. apply String.eqb_neq in E1, E2, E3, E4, E5.
  split; [intros _|done].
  repeat split; try done. apply not_elem_of_nil.
Qed.

(** X18: a refresh that cannot read one of the two files leaves what is
    served from that file as it was, and still takes over the other file:
    with the metrics file unreadable the latest metric and the count are
    the previous ones, with the events file unreadable the events are the
    previous ones, and a file that is missing empties its cache. *)
Theorem refresh_keeps_what_it_cannot_read (t : tick) (globals : monitor) :
  (tick_metrics t = FileUnreadable →
   monitor_relay (refresh loads strip t globals) = monitor_relay globals) ∧
  (tick_events t = EventsUnreadable →
   events_cache (refresh loads strip t globals) = events_cache globals) ∧
  (∀ content, tick_events t = EventsContent content →
              MetricsHandler_do_GET dict_of_pairs METRICS_FILE EVENTS_FILE
                (refresh loads strip t globals) "/events" =
                TextReply 200 content) ∧
  (tick_events t = EventsMissing →
   events_cache (refresh loads strip t globals) = "") ∧
  (tick_metrics t = FileMissing →
   metrics_cache (monitor_relay (refresh loads strip t globals)) = [] ∧
   latest_metric_cache (monitor_relay (refresh loads strip t globals)) =
     JObj ∅).
Proof.
  split; [|split; [|split; [|split]]].
  - intros H. rewrite refresh_relay. by rewrite H.
  - intros H. unfold refresh. by rewrite H.
  - intros content H. unfold refresh. by rewrite H.
  - intros H. unfold refresh. by rewrite H.
  - intros H. rewrite refresh_relay. by rewrite H.
Qed.

End MonitorFacts.


(* ===================================================================== *)
(** * From two accepted samples to the rates; staleness over time *)
(* ===================================================================== *)





(** [get_health_status] on a processor whose timestamp is a number. *)
Lemma get_health_status_num (self : processor) (current_time seen : Q) :
  py_num (last_seen_ts self) = Some seen →
  get_health_status self current_time =
    Ok (if num_cmp OpGt (current_time - seen)
             (inject_Z (max_age_seconds self))
        then health "stale" (last_seen_ts self)
        else health "ok" (last_seen_ts self)).
Proof.
  intros Hseen. unfold get_health_status.
  destruct (py_sub_num (JFloat current_time) (last_seen_ts self)
              current_time seen eq_refl Hseen) as (age & a & Hage & Ha & Hq).
  assert (age = JFloat (current_time - seen)) as ->.
  { destruct (last_seen_ts self); simpl in Hseen; simplify_eq;
      unfold py_sub in Hage; simpl in Hage; congruence. }
  destruct (last_seen_ts self) eqn:E; try done;
    rewrite Hage, bind_Ok;
    by rewrite (py_cmp_num OpGt (JFloat (current_time - seen))
                  (JInt (max_age_seconds self))
                  (current_time - seen)
                  (inject_Z (max_age_seconds self)) eq_refl eq_refl).
Qed.

Lemma health_status_inj (s1 s2 : string) (ts : json) :
  health s1 ts = health s2 ts → s1 = s2.
Proof.
  intros H.
  assert (health s1 ts !! "status" = health s2 ts !! "status") as Hl
    by by rewrite H.
  rewrite !(proj1 (health_fields _ _)) in Hl. by injection Hl.
Qed.

(** X23: staleness only grows with time: as long as no new sample is
    accepted, a processor that [get_health_status] reports "stale" at one
    time is reported "stale" at every later time, and one it reports "ok"
    was "ok" at every earlier time. *)
Theorem health_stays_stale (self : processor) (seen earlier later : Q) :
  py_num (last_seen_ts self) = Some seen →
  (earlier <= later)%Q →
  (get_health_status self earlier =
     Ok (health "stale" (last_seen_ts self)) →
   get_health_status self later =
     Ok (health "stale" (last_seen_ts self))) ∧
  (get_health_status self later = Ok (health "ok" (last_seen_ts self)) →
   get_health_status self earlier = Ok (health "ok" (last_seen_ts self))).
Proof.
  intros Hseen Hle.
  rewrite !(get_health_status_num self _ seen Hseen).
  assert (num_cmp OpGt (earlier - seen) (inject_Z (max_age_seconds self))
            = true →
          num_cmp OpGt (later - seen) (inject_Z (max_age_seconds self))
            = true) as Hmono.
  { rewrite !num_cmp_gt. intros H. eapply Qlt_le_trans; [exact H|].
    unfold Qminus. by apply Qplus_le_l. }
  split.
  - destruct (num_cmp OpGt (earlier - seen) _) eqn:E.
    + by rewrite Hmono.
    + intros H. exfalso.
      assert (health "ok" (last_seen_ts self) =
              health "stale" (last_seen_ts self)) as Hs by congruence.
      by apply health_status_inj in Hs.
  - destruct (num_cmp OpGt (earlier - seen) _) eqn:E; [|done].
    rewrite Hmono by done.
    intros H. exfalso.
    assert (health "stale" (last_seen_ts self) =
            health "ok" (last_seen_ts self)) as Hs by congruence.
    by apply health_status_inj in Hs.
Qed.

Lemma health_stays_stale_witness :
  (get_health_status (update (init 30) snapshot_100).1 140 =
     Ok (health "stale" (JInt 100)) →
   get_health_status (update (init 30) snapshot_100).1 150 =
     Ok (health "stale" (JInt 100))) ∧
  (get_health_status (update (init 30) snapshot_100).1 150 =
     Ok (health "ok" (JInt 100)) →
   get_health_status (update (init 30) snapshot_100).1 140 =
     Ok (health "ok" (JInt 100))).
Proof.
  apply (health_stays_stale (update (init 30) snapshot_100).1 100 140 150).
  - reflexivity.
  - by vm_compute.
Defined.

(* ===================================================================== *)
(** * The charts of the dashboard page *)
(* ===================================================================== *)

(** The pushes of [forEach]: with a dataset for every value the loop goes
    through, and the datasets from [i] on have each got their value. *)
Lemma push_values_pushed (values : list json) (i : nat)
    (datasets : list (list json)) :
  i + length values ≤ length datasets →
  ∃ out,
    push_values values i datasets = (out, Ok tt) ∧
    length out = length datasets ∧
    ∀ j, out !! j =
         match values !! (j - i) with
         | Some v =>
             if decide (i ≤ j) then (λ data, data ++ [v]) <$> datasets !! j
             else datasets !! j
         | None => datasets !! j
         end.
Proof.
  revert i datasets. induction values as [|v rest IH]; intros i datasets Hlen.
  - exists datasets. by repeat split.
  - simpl in Hlen.
    destruct (lookup_lt_is_Some_2 datasets i) as [data Hdata]; [lia|].
    simpl. rewrite Hdata.
    destruct (IH (S i) (<[i := data ++ [v]]> datasets))
      as (out & -> & Hout & Hlookup).
    { rewrite length_insert. lia. }
    exists out. split; [done|].
    split; [by rewrite Hout, length_insert|].
    intros j. rewrite Hlookup.
    destruct (decide (j < i)) as [Hlt|Hge].
    + replace (j - S i) with 0 by lia. replace (j - i) with 0 by lia.
      simpl. rewrite list_lookup_insert_ne by lia.
      destruct (rest !! 0); repeat case_decide; done || lia.
    + destruct (decide (j = i)) as [->|Hne].
      * replace (i - S i) with 0 by lia. replace (i - i) with 0 by lia.
        simpl. rewrite list_lookup_insert_eq by by eapply lookup_lt_Some.
        rewrite Hdata.
        destruct (rest !! 0); repeat case_decide; done || lia.
      * replace (j - i) with (S (j - S i)) by lia. simpl.
        rewrite list_lookup_insert_ne by lia.
        destruct (rest !! (j - S i)); repeat case_decide; done || lia.
Qed.

Lemma length_tail_pred {A : Type} (l : list A) :
  length (tail l) = length l - 1.
Proof. destruct l; simpl; lia. Qed.

Lemma last_n_all {A : Type} (n : nat) (l : list A) :
  length l ≤ n → last_n n l = l.
Proof. intros H. unfold last_n. by replace (length l - n) with 0 by lia. Qed.

Lemma last_n_tail {A : Type} (n : nat) (l : list A) :
  length l = S n → last_n n l = tail l.
Proof.
  intros H. unfold last_n. replace (length l - n) with 1 by lia.
  by destruct l.
Qed.

(** X24: [updateChart] keeps a window of the 20 newest points.  On a chart
    with at most 20 labels and a point in every dataset for every label,
    called with as many values as the chart has datasets, it does not
    throw; the labels afterwards are the 20 newest of the old labels and
    the new one, every dataset holds the 20 newest of its old points and
    its new one, and the chart again has at most 20 labels and a point in
    every dataset for every label. *)
Theorem updateChart_window (c : chart) (value : json) (label : string)
    (multi : bool) :
  aligned c →
  length (chart_labels c) ≤ 20 →
  length (points_of value multi) = length (chart_datasets c) →
  ∃ c',
    updateChart c value label multi = (c', Ok tt) ∧
    chart_labels c' = last_n 20 (chart_labels c ++ [label]) ∧
    length (chart_datasets c') = length (chart_datasets c) ∧
    (∀ i data v,
       chart_datasets c !! i = Some data →
       points_of value multi !! i = Some v →
       chart_datasets c' !! i = Some (last_n 20 (data ++ [v]))) ∧
    aligned c' ∧
    length (chart_labels c') ≤ 20.
Proof.
  intros Hal Hlen Hpoints.
  destruct (push_values_pushed (points_of value multi) 0 (chart_datasets c))
    as (out & Hpush & Hout & Hlookup); [lia|].
  assert (∀ i data v,
            chart_datasets c !! i = Some data →
            points_of value multi !! i = Some v →
            out !! i = Some (data ++ [v])) as Hpushed.
  { intros i data v Hd Hv. rewrite Hlookup.
    replace (i - 0) with i by lia. rewrite Hv, Hd.
    by case_decide; [|lia]. }
  assert (Forall (λ data : list json,
                    length data = S (length (chart_labels c))) out) as Hal'.
  { apply Forall_lookup. intros i data' Hi.
    destruct (lookup_lt_is_Some_2 (chart_datasets c) i) as [data Hd].
    { rewrite <- Hout. by eapply lookup_lt_Some. }
    destruct (lookup_lt_is_Some_2 (points_of value multi) i) as [v Hv].
    { rewrite Hpoints. by eapply lookup_lt_Some. }
    rewrite (Hpushed i data v Hd Hv) in Hi. injection Hi as <-.
    rewrite length_app. simpl.
    rewrite (proj1 (Forall_lookup _ _) Hal i data Hd). lia. }
  assert (updateChart c value label multi =
          (if Nat.ltb 20 (length (chart_labels c ++ [label])) then
             {| chart_labels := tail (chart_labels c ++ [label]);
                chart_datasets := tail <$> out |}
           else {| chart_labels := chart_labels c ++ [label];
                   chart_datasets := out |}, Ok tt)) as ->.
  { assert (match multi, value with
            | true, JArr values => push_values values 0 (chart_datasets c)
            | _, _ => push_values [value] 0 (chart_datasets c)
            end = push_values (points_of value multi) 0 (chart_datasets c))
      as Heq by (unfold points_of; by destruct multi, value).
    unfold updateChart. rewrite Heq, Hpush. simpl.
    by destruct (Nat.ltb 20 _). }
  rewrite length_app. simpl.
  destruct (Nat.ltb 20 (length (chart_labels c) + 1)) eqn:E.
  - apply Nat.ltb_lt in E.
    assert (length (chart_labels c) = 20) as H20 by lia.
    eexists. split; [done|]. simpl.
    split; [rewrite last_n_tail; [done|rewrite length_app; simpl; lia]|].
    split; [by rewrite length_fmap|].
    split; [|split].
    + intros i data v Hd Hv. rewrite list_lookup_fmap.
      rewrite (Hpushed i data v Hd Hv). simpl. f_equal.
      rewrite last_n_tail; [done|].
      rewrite length_app. simpl.
      rewrite (proj1 (Forall_lookup _ _) Hal i data Hd). lia.
    + unfold aligned. simpl. apply Forall_fmap.
      eapply Forall_impl; [exact Hal'|]. intros data Hdata. simpl in Hdata. simpl.
      assert (length (tail (chart_labels c ++ [label])) = 20) as ->.
      { rewrite length_tail_pred, length_app. simpl. lia. }
      rewrite length_tail_pred. lia.
    + rewrite length_tail_pred, length_app. simpl. lia.
  - apply Nat.ltb_ge in E.
    eexists. split; [done|]. simpl.
    split; [rewrite last_n_all; [done|rewrite length_app; simpl; lia]|].
    split; [done|].
    split; [|split].
    + intros i data v Hd Hv. rewrite (Hpushed i data v Hd Hv). f_equal.
      rewrite last_n_all; [done|].
      rewrite length_app. simpl.
      rewrite (proj1 (Forall_lookup _ _) Hal i data Hd). lia.
    + unfold aligned. simpl.
      eapply Forall_impl; [exact Hal'|]. intros data Hdata. simpl in Hdata. simpl.
      rewrite length_app. simpl. lia.
    + rewrite length_app. simpl. lia.
Qed.

Lemma updateChart_window_witness :
  ∃ c',
    updateChart disk_chart (JArr [JInt 14; JInt 7]) "10:00:30" true =
      (c', Ok tt) ∧
    chart_labels c' =
      last_n 20 (chart_labels disk_chart ++ ["10:00:30"]) ∧
    length (chart_datasets c') = length (chart_datasets disk_chart) ∧
    (∀ i data v,
       chart_datasets disk_chart !! i = Some data →
       points_of (JArr [JInt 14; JInt 7]) true !! i = Some v →
       chart_datasets c' !! i = Some (last_n 20 (data ++ [v]))) ∧
    aligned c' ∧
    length (chart_labels c') ≤ 20.
Proof.
  apply (updateChart_window disk_chart (JArr [JInt 14; JInt 7]) "10:00:30"
           true).
  - unfold aligned. simpl. by repeat constructor.
  - simpl. lia.
  - reflexivity.
Defined.

(** The scenario of a chart that is full: the oldest point goes. *)
Example updateChart_full :
  updateChart
    {| chart_labels := replicate 20 "t"; chart_datasets := [replicate 20 (JInt 0)] |}
    (JInt 1) "now" false =
  ({| chart_labels := replicate 19 "t" ++ ["now"];
      chart_datasets := [replicate 19 (JInt 0) ++ [JInt 1]] |}, Ok tt).
Proof. reflexivity. Qed.
